(** * GraphRAG query engine: a shallow embedding of [query_graphrag.py]

    The development follows
    [docs/workflows/showcases/graphrag/skills/query_graphrag.py]:
    [load_graph], [search_entities], [get_related_entities],
    [find_chunks_with_entities], [get_subgraph] and [main].  It then covers
    [get_stats], [get_most_connected] and [list_by_type] of
    [explore_graph.py], and [load_chunk] and [extract_entities_simple] of
    [extract_graph_entities.py].

    Modelling conventions.
    - A JSON object read by the program is a record whose fields are
      [option]s: [None] is an absent key.  [d[k]] on an absent key raises
      [KeyError k]; [d.get(k, dflt)] yields [dflt].  Field values are
      strings (identifiers and labels), as in the data the extractor writes.
    - Python exceptions are the [Err] branch of [py_result]; nothing in the
      program catches one, so an [Err] aborts the run.
    - A Python [set] of identifiers is a [gset string]; [list(s)] is
      [elements s], whose order is unspecified, as in Python.
    - Text is ASCII: [lower] maps [A-Z] to [a-z] and leaves other bytes.
    - The file system is read-only input ([World]); [open], [json.load],
      [glob] and the output calls are library code whose outcome the world
      supplies.  Functions that touch the world return a value together
      with the list of events they performed. *)

From Stdlib Require Import ZArith Ascii String List Sorted Lia.
From stdpp Require Import base option list sets gmap strings.

Local Open Scope string_scope.
Local Open Scope Z_scope.
Local Open Scope list_scope.

(** ** Python exceptions *)

Inductive py_error : Type :=
| FileNotFoundError (path : string)
| OSError (path : string)
| JSONDecodeError (path : string)
| KeyError (key : string).

Inductive py_result (A : Type) : Type :=
| Ok (a : A)
| Err (e : py_error).
Arguments Ok {A} a.
Arguments Err {A} e.

#[global] Instance py_result_ret : MRet py_result := fun A a => Ok a.
#[global] Instance py_result_bind : MBind py_result := fun A B f m =>
  match m with
  | Ok a => f a
  | Err e => Err e
  end.

(** [d[key]] *)
Definition getitem {A} (key : string) (field : option A) : py_result A :=
  match field with
  | Some v => Ok v
  | None => Err (KeyError key)
  end.

(** [d.get(key, dflt)] *)
Definition get {A} (field : option A) (dflt : A) : A :=
  match field with
  | Some v => v
  | None => dflt
  end.

(** A list comprehension [[x for x in l if p(x)]] whose test may raise. *)
Fixpoint filterM {A} (p : A → py_result bool) (l : list A) : py_result (list A) :=
  match l with
  | [] => Ok []
  | x :: l' =>
      b ← p x;
      rest ← filterM p l';
      Ok (if b : bool then x :: rest else rest)
  end.

(** A list comprehension [[f(x) for x in l]] whose body may raise. *)
Fixpoint mapM' {A B} (f : A → py_result B) (l : list A) : py_result (list B) :=
  match l with
  | [] => Ok []
  | x :: l' =>
      y ← f x;
      rest ← mapM' f l';
      Ok (y :: rest)
  end.

(** A [for] loop threading an accumulator; the body may raise. *)
Fixpoint foldM {A S} (body : S → A → py_result S) (s : S) (l : list A) : py_result S :=
  match l with
  | [] => Ok s
  | x :: l' =>
      s' ← body s x;
      foldM body s' l'
  end.

(** ** Strings *)

Definition lower_ascii (c : ascii) : ascii :=
  let n := nat_of_ascii c in
  if ((65 <=? n) && (n <=? 90))%nat then ascii_of_nat (n + 32) else c.

(** [s.lower()] *)
Fixpoint lower (s : string) : string :=
  match s with
  | EmptyString => EmptyString
  | String c s' => String (lower_ascii c) (lower s')
  end.

Fixpoint starts_with (p s : string) : bool :=
  match p, s with
  | EmptyString, _ => true
  | String a p', String b s' => if Ascii.eqb a b then starts_with p' s' else false
  | String _ _, EmptyString => false
  end.

(** [needle in hay] on strings: substring test. *)
Fixpoint contains (needle hay : string) : bool :=
  if starts_with needle hay then true
  else match hay with
       | EmptyString => false
       | String _ hay' => contains needle hay'
       end.

(** The separators of [str.split()] among the ASCII characters. *)
Definition is_space (c : ascii) : bool :=
  let n := nat_of_ascii c in
  (((9 <=? n) && (n <=? 13)) || ((28 <=? n) && (n <=? 32)))%nat.

Fixpoint split_go (s cur : string) : list string :=
  match s with
  | EmptyString => match cur with EmptyString => [] | _ => [cur] end
  | String c s' =>
      if is_space c
      then match cur with
           | EmptyString => split_go s' EmptyString
           | _ => cur :: split_go s' EmptyString
           end
      else split_go s' (cur +:+ String c EmptyString)
  end.

(** [s.split()] *)
Definition split (s : string) : list string := split_go s EmptyString.

(** ** Data model *)

Record Node : Type := mkNode {
  node_id : option string;
  node_text : option string;
  node_type : option string }.

Record Edge : Type := mkEdge {
  edge_from : option string;
  edge_to : option string;
  edge_type : option string }.

Record Graph : Type := mkGraph {
  nodes : option (list Node);
  edges : option (list Edge) }.

#[global] Instance Node_eq_dec : EqDecision Node.
Proof. solve_decision. Defined.
#[global] Instance Edge_eq_dec : EqDecision Edge.
Proof. solve_decision. Defined.

(** ** [search_entities] *)

(** The inner loop [for term in query_lower: if term in node_text:
    matches.append(node); break]. *)
Fixpoint scan_terms (node : Node) (node_text : string)
    (query_lower : list string) (matches : list Node) : list Node :=
  match query_lower with
  | [] => matches
  | term :: rest =>
      if contains term node_text
      then matches ++ [node]
      else scan_terms node node_text rest matches
  end.

Definition node_search_text (node : Node) : string :=
  lower (get (node_id node) "" +:+ " " +:+ get (node_text node) "").

Definition search_entities (graph : Graph) (query_terms : list string)
    : py_result (list Node) :=
  let query_lower := map lower query_terms in
  ns ← getitem "nodes" (nodes graph);
  Ok (fold_left
        (fun matches node =>
           scan_terms node (node_search_text node) query_lower matches)
        ns []).

(** ** [get_related_entities] *)

(** One iteration of [for edge in graph['edges']]. *)
Definition scan_edge (related new_entities : gset string) (edge : Edge)
    : py_result (gset string) :=
  f ← getitem "from" (edge_from edge);
  new1 ← (if decide (f ∈ related)
          then t ← getitem "to" (edge_to edge); Ok (new_entities ∪ {[t]})
          else Ok new_entities);
  t ← getitem "to" (edge_to edge);
  if decide (t ∈ related)
  then f' ← getitem "from" (edge_from edge); Ok (new1 ∪ {[f']})
  else Ok new1.

(** [n] iterations of the body of [for _ in range(depth)]. *)
Fixpoint hop_rounds (n : nat) (graph : Graph) (related : gset string)
    : py_result (gset string) :=
  match n with
  | O => Ok related
  | S n' =>
      es ← getitem "edges" (edges graph);
      new_entities ← foldM (scan_edge related) ∅ es;
      hop_rounds n' graph (related ∪ new_entities)
  end.

Definition get_related_entities (graph : Graph) (entity_ids : list string)
    (depth : Z) : py_result (list string) :=
  related ← hop_rounds (Z.to_nat depth) graph (list_to_set entity_ids);
  Ok (elements related).

(** ** [get_subgraph] *)

Definition node_selected (entity_ids : list string) (n : Node) : py_result bool :=
  i ← getitem "id" (node_id n);
  Ok (bool_decide (i ∈ entity_ids)).

(** [e['from'] in entity_ids and e['to'] in entity_ids]: the right operand
    is only evaluated when the left one is true. *)
Definition edge_selected (entity_ids : list string) (e : Edge) : py_result bool :=
  f ← getitem "from" (edge_from e);
  if bool_decide (f ∈ entity_ids)
  then t ← getitem "to" (edge_to e); Ok (bool_decide (t ∈ entity_ids))
  else Ok false.

(** The dictionary [{'nodes': nodes, 'edges': edges}] the builder returns. *)
Record Subgraph : Type := mkSubgraph {
  sg_nodes : list Node;
  sg_edges : list Edge }.

Definition get_subgraph (graph : Graph) (entity_ids : list string)
    : py_result Subgraph :=
  ns ← getitem "nodes" (nodes graph);
  nodes' ← filterM (node_selected entity_ids) ns;
  es ← getitem "edges" (edges graph);
  edges' ← filterM (edge_selected entity_ids) es;
  Ok {| sg_nodes := nodes'; sg_edges := edges' |}.

(** ** The world: files read by the program, and the events of a run *)

Inductive file_state (A : Type) : Type :=
| Absent                (* no such file: [open] raises FileNotFoundError *)
| Unreadable            (* [open] raises another OSError *)
| Malformed             (* not valid JSON: [json.load] raises JSONDecodeError *)
| Parsed (a : A).       (* [json.load] returns [a] *)
Arguments Absent {A}.
Arguments Unreadable {A}.
Arguments Malformed {A}.
Arguments Parsed {A} a.

Record Entity : Type := mkEntity {
  entity_id : option string;
  entity_type : option string;
  entity_text : option string }.

(** The content of one [entities_CHUNK-*.json] artifact. *)
Record ChunkData : Type := mkChunkData {
  chunk_id : option string;
  entities : option (list Entity);
  relationships : option (list Edge) }.

(** An element of the list [find_chunks_with_entities] returns. *)
Record Chunk : Type := mkChunk {
  c_chunk_id : string;
  c_entities : list Entity;
  c_relationships : list Edge;
  c_file : string }.

(** A directory entry: its name, [str(path)] and what reading it gives. *)
Record DirEntry : Type := mkDirEntry {
  entry_name : string;
  entry_path : string;
  entry_file : file_state ChunkData }.

Record World : Type := mkWorld {
  graph_files : string → file_state Graph;
  (** entries of a directory in the order the file system enumerates
      them; empty when there is no such directory *)
  listdir : string → list DirEntry;
  (** what [os.makedirs], [open(_, 'w')] and [json.dump] do for an output
      path: [None] when they succeed, the exception otherwise (for a path
      without a directory part, [os.makedirs('')] raises) *)
  write_outcome : string → option py_error }.

Record NoMatchResult : Type := mkNoMatchResult {
  nm_query : string;
  nm_status : string;
  nm_message : string;
  nm_suggestions : list string }.

Record SubgraphSummary : Type := mkSubgraphSummary {
  sub_nodes : nat;
  sub_edges : nat;
  sub_data : Subgraph }.

Record Statistics : Type := mkStatistics {
  st_direct_matches : nat;
  st_total_related : nat;
  st_chunks_found : nat;
  st_search_depth : Z }.

Record SuccessResult : Type := mkSuccessResult {
  sr_query : string;
  sr_status : string;
  sr_matching_entities : list Node;
  sr_total_related_entities : nat;
  sr_relevant_chunks : nat;
  sr_chunks : list Chunk;
  sr_subgraph : SubgraphSummary;
  sr_statistics : Statistics }.

Inductive QueryResult : Type :=
| NoMatches (r : NoMatchResult)
| Success (r : SuccessResult).

Definition status (r : QueryResult) : string :=
  match r with
  | NoMatches r => nm_status r
  | Success r => sr_status r
  end.

Record Summary : Type := mkSummary {
  sum_status : string;
  sum_query : string;
  sum_entities_found : nat;
  sum_related_entities : nat;
  sum_chunks_found : nat;
  sum_output_file : string }.

Inductive func : Type :=
| F_load_graph
| F_search_entities
| F_get_related_entities
| F_find_chunks_with_entities
| F_get_subgraph.

Inductive event : Type :=
| EvCall (f : func)                         (* a function of the module is entered *)
| EvOpen (path : string)                    (* [open(path, 'r')] *)
| EvGlob (dir : string)                     (* [Path(dir).glob(...)] *)
| EvWrite (path : string) (r : QueryResult) (* the result is written to [path] *)
| EvPrint (s : Summary).

(** A computation that performs events and then returns or raises. *)
Inductive io (A : Type) : Type :=
| IO (outcome : py_result A) (trace : list event).
Arguments IO {A} outcome trace.

Definition outcome {A} (m : io A) : py_result A := let 'IO r _ := m in r.
Definition trace {A} (m : io A) : list event := let 'IO _ t := m in t.

#[global] Instance io_ret : MRet io := fun A a => IO (Ok a) [].
#[global] Instance io_bind : MBind io := fun A B f m =>
  match m with
  | IO (Ok a) t => let 'IO r t' := f a in IO r (t ++ t')
  | IO (Err e) t => IO (Err e) t
  end.

Definition pure {A} (r : py_result A) : io A := IO r [].
Definition emit (e : event) : io unit := IO (Ok tt) [e].
Definition invoke {A} (f : func) (m : io A) : io A :=
  _ ← emit (EvCall f); m.

Fixpoint for_each {A S} (body : S → A → io S) (s : S) (l : list A) : io S :=
  match l with
  | [] => mret s
  | x :: l' =>
      s' ← body s x;
      for_each body s' l'
  end.

(** [with open(path, 'r') as f: json.load(f)] *)
Definition open_json {A} (path : string) (f : file_state A) : io A :=
  _ ← emit (EvOpen path);
  pure match f with
       | Absent => Err (FileNotFoundError path)
       | Unreadable => Err (OSError path)
       | Malformed => Err (JSONDecodeError path)
       | Parsed a => Ok a
       end.

(** ** [load_graph] *)

Definition load_graph (w : World) (graph_file : string) : io Graph :=
  open_json graph_file (graph_files w graph_file).

(** ** [find_chunks_with_entities] *)

Fixpoint ends_with (suffix s : string) : bool :=
  if String.eqb suffix s then true
  else match s with
       | EmptyString => false
       | String _ s' => ends_with suffix s'
       end.

Fixpoint skip (n : nat) (s : string) : string :=
  match n, s with
  | S n', String _ s' => skip n' s'
  | _, _ => s
  end.

(** The pattern ['entities_CHUNK-*.json'] on a file name: the fixed prefix,
    then any characters, then the fixed suffix. *)
Definition glob_match (name : string) : bool :=
  starts_with "entities_CHUNK-" name
  && ends_with ".json" (skip 15 name).

Definition glob (w : World) (dir : string) : io (list DirEntry) :=
  _ ← emit (EvGlob dir);
  mret (filter (fun d => glob_match (entry_name d) = true) (listdir w dir)).

(** [any(eid in chunk_entity_ids for eid in entity_ids)] *)
Definition any_in (entity_ids chunk_entity_ids : list string) : bool :=
  existsb (fun eid => bool_decide (eid ∈ chunk_entity_ids)) entity_ids.

(** The body of the loop over the artifacts, after the file is parsed. *)
Definition scan_chunk (entity_ids : list string) (chunks : list Chunk)
    (path : string) (data : ChunkData) : py_result (list Chunk) :=
  chunk_entity_ids ← mapM' (fun e => getitem "id" (entity_id e))
                           (get (entities data) []);
  if any_in entity_ids chunk_entity_ids
  then
    cid ← getitem "chunk_id" (chunk_id data);
    ents ← getitem "entities" (entities data);
    Ok (chunks ++ [ {| c_chunk_id := cid;
                       c_entities := ents;
                       c_relationships := get (relationships data) [];
                       c_file := path |} ])
  else Ok chunks.

(** One iteration of [for entity_file in Path(...).glob(...)]. *)
Definition scan_chunk_file (entity_ids : list string) (chunks : list Chunk)
    (entity_file : DirEntry) : io (list Chunk) :=
  data ← open_json (entry_path entity_file) (entry_file entity_file);
  pure (scan_chunk entity_ids chunks (entry_path entity_file) data).

Definition find_chunks_with_entities (w : World) (entity_ids : list string)
    (graph_chunks_dir : string) : io (list Chunk) :=
  files ← glob w graph_chunks_dir;
  for_each (scan_chunk_file entity_ids) [] files.

(** ** [main] *)

Definition suggestions : list string :=
  ["Try broader terms"; "Check spelling"; "Use key concepts"].

(** [os.makedirs(...); with open(output_file, 'w') as f: json.dump(result, f)] *)
Definition save_result (w : World) (output_file : string) (result : QueryResult)
    : io unit :=
  match write_outcome w output_file with
  | None => emit (EvWrite output_file result)
  | Some e => pure (Err e)
  end.

(** [main], with [sys.argv[1..4]] as the four strings and [sys.argv[5]],
    when given, already converted by [int]. *)
Definition main (w : World)
    (query graph_file graph_chunks_dir output_file : string)
    (depth_arg : option Z) : io Summary :=
  let max_depth := get depth_arg 2 in
  graph ← invoke F_load_graph (load_graph w graph_file);
  let query_terms := split (lower query) in
  matching_entities ←
    invoke F_search_entities (pure (search_entities graph query_terms));
  '(result, related_ids, relevant_chunks) ←
    match matching_entities with
    | [] =>
        mret (NoMatches {| nm_query := query;
                           nm_status := "no_matches";
                           nm_message := "No entities found matching the query";
                           nm_suggestions := suggestions |},
              [], [])
    | _ :: _ =>
        entity_ids ←
          pure (mapM' (fun e => getitem "id" (node_id e)) matching_entities);
        related_ids ←
          invoke F_get_related_entities
            (pure (get_related_entities graph entity_ids max_depth));
        relevant_chunks ←
          invoke F_find_chunks_with_entities
            (find_chunks_with_entities w related_ids graph_chunks_dir);
        subgraph ←
          invoke F_get_subgraph (pure (get_subgraph graph related_ids));
        mret (Success {|
                sr_query := query;
                sr_status := "success";
                sr_matching_entities := matching_entities;
                sr_total_related_entities := length related_ids;
                sr_relevant_chunks := length relevant_chunks;
                sr_chunks := take 20 relevant_chunks;
                sr_subgraph := {| sub_nodes := length (sg_nodes subgraph);
                                  sub_edges := length (sg_edges subgraph);
                                  sub_data := subgraph |};
                sr_statistics := {| st_direct_matches := length matching_entities;
                                    st_total_related := length related_ids;
                                    st_chunks_found := length relevant_chunks;
                                    st_search_depth := max_depth |} |},
              related_ids, relevant_chunks)
    end;
  _ ← save_result w output_file result;
  let found := match matching_entities with [] => false | _ => true end in
  let summary :=
    {| sum_status := "success";
       sum_query := query;
       sum_entities_found := if found then length matching_entities else O;
       sum_related_entities := if found then length related_ids else O;
       sum_chunks_found := if found then length relevant_chunks else O;
       sum_output_file := output_file |} in
  _ ← emit (EvPrint summary);
  mret summary.

(** ** Specification vocabulary *)

(** [s] occurs in [t] as a contiguous substring. *)
Definition substring_of (s t : string) : Prop :=
  ∃ pre post, t = pre +:+ s +:+ post.

(** Some lower-cased term occurs in the text the matcher builds for [n]. *)
Definition matches_node (query_terms : list string) (n : Node) : bool :=
  existsb (fun term => contains (lower term) (node_search_text n)) query_terms.

(** The text of a node as the specification words it: the identifier
    directly followed by the label. *)
Definition joined_search_text (n : Node) : string :=
  lower (get (node_id n) "" +:+ get (node_text n) "").

Definition matches_joined (query_terms : list string) (n : Node) : bool :=
  existsb (fun term => contains (lower term) (joined_search_text n)) query_terms.

(** A field holds an identifier that belongs to [E]. *)
Definition id_in (E : list string) (field : option string) : bool :=
  match field with
  | Some i => bool_decide (i ∈ E)
  | None => false
  end.

Definition node_ok (n : Node) : Prop := is_Some (node_id n).
Definition edge_ok (e : Edge) : Prop :=
  is_Some (edge_from e) ∧ is_Some (edge_to e).

(** The identifiers carried by the nodes of a graph. *)
Definition node_ids (ns : list Node) : list string := omap node_id ns.

(** Some edge joins [x] and [y], in either direction. *)
Definition adjacent (es : list Edge) (x y : string) : Prop :=
  ∃ e, e ∈ es ∧
       ((edge_from e = Some x ∧ edge_to e = Some y) ∨
        (edge_from e = Some y ∧ edge_to e = Some x)).

(** A walk of [k] edges from [x] to [z]. *)
Inductive walk (es : list Edge) : nat → string → string → Prop :=
| walk_here x : walk es 0 x x
| walk_step k x y z : adjacent es x y → walk es k y z → walk es (S k) x z.

(** [x] lies at undirected edge-distance at most [h] from a seed. *)
Definition within_distance (es : list Edge) (seeds : list string) (h : nat)
    (x : string) : Prop :=
  ∃ s k, s ∈ seeds ∧ (k ≤ h)%nat ∧ walk es k s x.

(** The identifiers of the entities of an artifact (none when it does not
    parse or has no [entities]). *)
Definition artifact_ids (d : DirEntry) : list string :=
  match entry_file d with
  | Parsed data => omap entity_id (get (entities data) [])
  | _ => []
  end.

(** The artifact mentions one of [entity_ids]. *)
Definition hits (entity_ids : list string) (d : DirEntry) : Prop :=
  Exists (fun x => x ∈ artifact_ids d) entity_ids.

#[global] Instance hits_dec entity_ids d : Decision (hits entity_ids d).
Proof. unfold hits. apply _. Defined.

(** What the locator needs of an artifact to process it without raising:
    it parses, its entities carry an [id], and it carries a [chunk_id]
    when it is selected. *)
Definition artifact_ok (entity_ids : list string) (d : DirEntry) : Prop :=
  ∃ data, entry_file d = Parsed data
          ∧ Forall (fun e => is_Some (entity_id e)) (get (entities data) [])
          ∧ (hits entity_ids d → is_Some (chunk_id data)).

(** [c] is the record of artifact [d], annotated with where it was read. *)
Definition record_of (c : Chunk) (d : DirEntry) : Prop :=
  ∃ data, entry_file d = Parsed data
          ∧ chunk_id data = Some (c_chunk_id c)
          ∧ entities data = Some (c_entities c)
          ∧ c_relationships c = get (relationships data) []
          ∧ c_file c = entry_path d.

(** The artifacts the locator enumerates in [dir]. *)
Definition chunk_artifacts (w : World) (dir : string) : list DirEntry :=
  filter (fun d => glob_match (entry_name d) = true) (listdir w dir).

(** Events of reading the chunk directory. *)
Definition reads_only (e : event) : Prop :=
  match e with
  | EvGlob _ | EvOpen _ => True
  | _ => False
  end.

(** Events of the stages that follow the matcher: a call of the expander,
    of the chunk locator or of the subgraph builder, or a directory scan. *)
Definition query_stage (e : event) : Prop :=
  match e with
  | EvCall F_get_related_entities
  | EvCall F_find_chunks_with_entities
  | EvCall F_get_subgraph
  | EvGlob _ => True
  | _ => False
  end.

Definition no_match_result (query : string) : QueryResult :=
  NoMatches {| nm_query := query;
               nm_status := "no_matches";
               nm_message := "No entities found matching the query";
               nm_suggestions :=
                 ["Try broader terms"; "Check spelling"; "Use key concepts"] |}.

Definition no_match_summary (query output_file : string) : Summary :=
  {| sum_status := "success";
     sum_query := query;
     sum_entities_found := 0;
     sum_related_entities := 0;
     sum_chunks_found := 0;
     sum_output_file := output_file |}.

(** ** Example data *)

Definition example_graph : Graph :=
  {| nodes := Some [ mkNode (Some "A") (Some "CISO role") (Some "ROLE");
                     mkNode (Some "B") (Some "MFA concept") (Some "CONCEPT");
                     mkNode (Some "C") (Some "unrelated") (Some "CONCEPT") ];
     edges := Some [ mkEdge (Some "A") (Some "B") (Some "RELATES_TO") ] |}.

Definition chain_edges : list Edge :=
  [ mkEdge (Some "A") (Some "B") (Some "RELATES_TO");
    mkEdge (Some "B") (Some "C") (Some "RELATES_TO") ].

Definition chain_graph : Graph :=
  {| nodes := Some [ mkNode (Some "A") (Some "first") (Some "CONCEPT");
                     mkNode (Some "B") (Some "second") (Some "CONCEPT");
                     mkNode (Some "C") (Some "third") (Some "CONCEPT") ];
     edges := Some chain_edges |}.

(** A node whose identifier and label only meet across the separator. *)
Definition split_node : Node := mkNode (Some "a") (Some "b") None.
Definition split_graph : Graph := {| nodes := Some [split_node]; edges := Some [] |}.

(** A graph with an edge to an identifier that no node carries. *)
Definition dangling_graph : Graph :=
  {| nodes := Some [ mkNode (Some "A") (Some "CISO role") (Some "ROLE") ];
     edges := Some [ mkEdge (Some "A") (Some "X") (Some "RELATES_TO") ] |}.

(** A node that two different query terms match. *)
Definition twice_node : Node := mkNode (Some "ab") (Some "ab cd") None.
Definition twice_graph : Graph := {| nodes := Some [twice_node]; edges := Some [] |}.

(** ** Example worlds *)

Definition chunk_1 : ChunkData :=
  {| chunk_id := Some "CHUNK-1";
     entities := Some [ mkEntity (Some "A") (Some "ROLE") (Some "CISO");
                        mkEntity (Some "B") (Some "CONCEPT") (Some "MFA") ];
     relationships := Some [ mkEdge (Some "A") (Some "B") (Some "RELATES_TO") ] |}.

Definition chunk_2 : ChunkData :=
  {| chunk_id := Some "CHUNK-2";
     entities := Some [ mkEntity (Some "C") (Some "CONCEPT") (Some "unrelated") ];
     relationships := None |}.

(** The JSON object with no key at all. *)
Definition chunk_empty : ChunkData :=
  {| chunk_id := None; entities := None; relationships := None |}.

Definition in_chunks (name : string) (f : file_state ChunkData) : DirEntry :=
  {| entry_name := name; entry_path := "chunks/" +:+ name; entry_file := f |}.

Definition example_dir : list DirEntry :=
  [ in_chunks "entities_CHUNK-1.json" (Parsed chunk_1);
    in_chunks "notes.txt" Malformed;
    in_chunks "entities_CHUNK-2.json" (Parsed chunk_2);
    in_chunks "entities_CHUNK-3.json" (Parsed chunk_empty) ].

Definition broken_dir : list DirEntry :=
  [ in_chunks "entities_CHUNK-1.json" (Parsed chunk_1);
    in_chunks "entities_CHUNK-2.json" Malformed ].

Definition world_of (g : file_state Graph) (dir : list DirEntry) : World :=
  {| graph_files := fun p => if String.eqb p "graph.json" then g else Absent;
     listdir := fun d => if String.eqb d "chunks" then dir else [];
     write_outcome := fun _ => None |}.

Definition example_world : World := world_of (Parsed example_graph) example_dir.

(** One artifact of the chunk directory is not valid JSON. *)
Definition broken_world : World := world_of (Parsed example_graph) broken_dir.

(** The graph file holds the JSON object with no key at all. *)
Definition shapeless_world : World :=
  world_of (Parsed {| nodes := None; edges := None |}) example_dir.

(** What the run on [example_world] for the query [ciso] with one hop
    writes. *)
Definition example_success : SuccessResult :=
  {| sr_query := "ciso";
     sr_status := "success";
     sr_matching_entities := [ mkNode (Some "A") (Some "CISO role") (Some "ROLE") ];
     sr_total_related_entities := 2;
     sr_relevant_chunks := 1;
     sr_chunks :=
       [ {| c_chunk_id := "CHUNK-1";
            c_entities := [ mkEntity (Some "A") (Some "ROLE") (Some "CISO");
                            mkEntity (Some "B") (Some "CONCEPT") (Some "MFA") ];
            c_relationships := [ mkEdge (Some "A") (Some "B") (Some "RELATES_TO") ];
            c_file := "chunks/entities_CHUNK-1.json" |} ];
     sr_subgraph :=
       {| sub_nodes := 2;
          sub_edges := 1;
          sub_data :=
            {| sg_nodes := [ mkNode (Some "A") (Some "CISO role") (Some "ROLE");
                             mkNode (Some "B") (Some "MFA concept") (Some "CONCEPT") ];
               sg_edges := [ mkEdge (Some "A") (Some "B") (Some "RELATES_TO") ] |} |};
     sr_statistics :=
       {| st_direct_matches := 1;
          st_total_related := 2;
          st_chunks_found := 1;
          st_search_depth := 1 |} |}.

(** ** Further vocabulary *)

(** Every character of [s] satisfies [p]. *)
Fixpoint all_chars (p : ascii → bool) (s : string) : bool :=
  match s with
  | EmptyString => true
  | String c s' => p c && all_chars p s'
  end.

(** A subgraph read back as a graph. *)
Definition as_graph (sg : Subgraph) : Graph :=
  {| nodes := Some (sg_nodes sg); edges := Some (sg_edges sg) |}.

(** [x] is an endpoint of some edge. *)
Definition endpoint (es : list Edge) (x : string) : Prop :=
  ∃ e, e ∈ es ∧ (edge_from e = Some x ∨ edge_to e = Some x).

(** What the builder needs of an edge: its [from], and its [to] when the
    [from] is selected. *)
Definition edge_readable (E : list string) (e : Edge) : Prop :=
  ∃ f, edge_from e = Some f ∧ (f ∈ E → is_Some (edge_to e)).

(** The event of opening an artifact. *)
Definition opening (d : DirEntry) : event := EvOpen (entry_path d).

(** A graph whose only node has no [id]. *)
Definition idless_node : Node := mkNode None (Some "CISO role") None.
Definition idless_graph : Graph :=
  {| nodes := Some [idless_node]; edges := Some [] |}.
Definition idless_world : World := world_of (Parsed idless_graph) [].

(** * [explore_graph.py] *)

Definition upper_ascii (c : ascii) : ascii :=
  let n := nat_of_ascii c in
  if ((97 <=? n) && (n <=? 122))%nat then ascii_of_nat (n - 32) else c.

(** [s.upper()] *)
Fixpoint upper (s : string) : string :=
  match s with
  | EmptyString => EmptyString
  | String c s' => String (upper_ascii c) (upper s')
  end.

(** A [collections.Counter]: keys in order of first insertion, each with
    its count. *)
Definition counter : Type := list (string * nat).

(** [c[k] += 1] *)
Fixpoint counter_incr (k : string) (c : counter) : counter :=
  match c with
  | [] => [(k, 1%nat)]
  | (k', n) :: c' =>
      if String.eqb k' k then (k', S n) :: c'
      else (k', n) :: counter_incr k c'
  end.

(** [Counter(keys)] *)
Definition Counter (keys : list string) : counter :=
  fold_left (fun c k => counter_incr k c) keys [].

(** One step of a stable sort by decreasing count: [x] comes before the
    entries of the sorted tail that do not count more than it. *)
Fixpoint insert_by_count (x : string * nat) (l : counter) : counter :=
  match l with
  | [] => [x]
  | y :: l' =>
      if (snd y <=? snd x)%nat then x :: y :: l'
      else y :: insert_by_count x l'
  end.

(** [c.most_common()]: by decreasing count, entries with equal counts in
    order of first insertion. *)
Definition most_common (c : counter) : counter :=
  fold_right insert_by_count [] c.

(** [c.most_common(n)] *)
Definition most_common_n (n : Z) (c : counter) : counter :=
  take (Z.to_nat n) (most_common c).

(** [l[:limit]], for a limit of either sign. *)
Definition slice_to {A} (limit : Z) (l : list A) : list A :=
  if 0 <=? limit then take (Z.to_nat limit) l
  else take (length l - Z.to_nat (- limit)) l.

Record Stats : Type := mkStats {
  total_nodes : nat;
  total_edges : nat;
  entity_types : counter;
  relationship_types : counter }.

Definition get_stats (graph : Graph) : py_result Stats :=
  ns ← getitem "nodes" (nodes graph);
  node_types ← mapM' (fun n => getitem "type" (node_type n)) ns;
  es ← getitem "edges" (edges graph);
  edge_types ← mapM' (fun e => getitem "type" (edge_type e)) es;
  Ok {| total_nodes := length ns;
        total_edges := length es;
        entity_types := most_common (Counter node_types);
        relationship_types := most_common (Counter edge_types) |}.

(** An element of the list [get_most_connected] returns. *)
Record Connected : Type := mkConnected {
  ce_id : string;
  ce_text : string;
  ce_type : string;
  ce_connections : nat }.

(** One iteration of [for edge in graph['edges']] in [get_most_connected]. *)
Definition count_edge (connections : counter) (edge : Edge)
    : py_result counter :=
  f ← getitem "from" (edge_from edge);
  let connections := counter_incr f connections in
  t ← getitem "to" (edge_to edge);
  Ok (counter_incr t connections).

(** [{n['id']: n for n in graph['nodes']}]: a later node replaces an
    earlier one with the same id. *)
Definition build_entity_map (ns : list Node) : py_result (gmap string Node) :=
  foldM (fun (m : gmap string Node) n =>
           i ← getitem "id" (node_id n); Ok (<[i := n]> m)) ∅ ns.

Definition get_most_connected (graph : Graph) (top_n : Z)
    : py_result (list Connected) :=
  es ← getitem "edges" (edges graph);
  connections ← foldM count_edge [] es;
  ns ← getitem "nodes" (nodes graph);
  entity_map ← build_entity_map ns;
  foldM (fun result '(entity_id, count) =>
           match entity_map !! entity_id with
           | Some n =>
               text ← getitem "text" (node_text n);
               type ← getitem "type" (node_type n);
               Ok (result ++ [ {| ce_id := entity_id;
                                  ce_text := text;
                                  ce_type := type;
                                  ce_connections := count |} ])
           | None => Ok result
           end)
        [] (most_common_n top_n connections).

(** An element of the list [list_by_type] returns. *)
Record Listed : Type := mkListed {
  le_id : string;
  le_text : string;
  le_type : string }.

(** One iteration of the comprehension of [list_by_type]: the test, then
    the element when the test holds. *)
Definition list_node (entity_type : string) (n : Node)
    : py_result (option Listed) :=
  ty ← getitem "type" (node_type n);
  if String.eqb (upper ty) (upper entity_type)
  then
    i ← getitem "id" (node_id n);
    tx ← getitem "text" (node_text n);
    ty' ← getitem "type" (node_type n);
    Ok (Some {| le_id := i; le_text := tx; le_type := ty' |})
  else Ok None.

Definition list_by_type (graph : Graph) (entity_type : string) (limit : Z)
    : py_result (list Listed) :=
  ns ← getitem "nodes" (nodes graph);
  items ← mapM' (list_node entity_type) ns;
  Ok (slice_to limit (omap id items)).

(** ** Vocabulary for [explore_graph.py] *)

(** How often [k] occurs in [keys]. *)
Definition occurrences (k : string) (keys : list string) : nat :=
  length (filter (fun x => x = k) keys).

(** The sum of the counts of a counter. *)
Definition total (c : counter) : nat := sum_list (map snd c).

(** The count of [k] in a counter, zero when [k] is not a key. *)
Fixpoint count_of (k : string) (c : counter) : nat :=
  match c with
  | [] => O
  | (k', n) :: c' => if String.eqb k' k then n else count_of k c'
  end.

(** By decreasing count. *)
Definition count_ge (x y : string * nat) : Prop := (snd y ≤ snd x)%nat.

(** The endpoints of the edges, in the order the loop of
    [get_most_connected] counts them. *)
Definition endpoint_list (es : list Edge) : list string :=
  flat_map (fun e => match edge_from e, edge_to e with
                     | Some f, Some t => [f; t]
                     | _, _ => []
                     end) es.

(** A node carrying the three keys. *)
Definition node_full (n : Node) : Prop :=
  is_Some (node_id n) ∧ is_Some (node_text n) ∧ is_Some (node_type n).

(** The last node of the list that carries the id [i]. *)
Definition last_with_id (i : string) (ns : list Node) : option Node :=
  last (filter (fun n => node_id n = Some i) ns).

(** The type of [n] is [entity_type] up to letter case. *)
Definition type_matches (entity_type : string) (n : Node) : Prop :=
  ∃ ty, node_type n = Some ty ∧ upper ty = upper entity_type.

#[global] Instance type_matches_dec entity_type n :
  Decision (type_matches entity_type n).
Proof.
  unfold type_matches. destruct (node_type n) as [ty|].
  - destruct (decide (upper ty = upper entity_type)) as [H|H].
    + left. eauto.
    + right. intros (ty' & [= <-] & ?). done.
  - right. by intros (ty' & ? & _).
Defined.

(** The listing of a node (absent keys read as empty). *)
Definition listed (n : Node) : Listed :=
  {| le_id := get (node_id n) "";
     le_text := get (node_text n) "";
     le_type := get (node_type n) "" |}.

(** By decreasing number of connections. *)
Definition connections_ge (a b : Connected) : Prop :=
  (ce_connections b ≤ ce_connections a)%nat.

(** What [list_by_type] needs of a node: its [type], and its [id] and
    [text] when the type is the requested one. *)
Definition node_listable (entity_type : string) (n : Node) : Prop :=
  is_Some (node_type n)
  ∧ (type_matches entity_type n →
     is_Some (node_id n) ∧ is_Some (node_text n)).

(** A graph in which two nodes carry the same id. *)
Definition duplicate_nodes : list Node :=
  [ mkNode (Some "A") (Some "old label") (Some "ROLE");
    mkNode (Some "B") (Some "other") (Some "Concept");
    mkNode (Some "A") (Some "new label") (Some "concept") ].
Definition duplicate_edges : list Edge :=
  [ mkEdge (Some "A") (Some "B") (Some "RELATES_TO");
    mkEdge (Some "A") (Some "A") (Some "RELATES_TO") ].
Definition duplicate_graph : Graph :=
  {| nodes := Some duplicate_nodes; edges := Some duplicate_edges |}.

(** * [extract_graph_entities.py] *)

(** A chunk of the chunks file. *)
Record SourceChunk : Type := mkSourceChunk {
  sc_chunk_id : option string;
  sc_content : option string }.

(** [ValidationError(message, code)] *)
Inductive validation_error : Type :=
| ValidationError (message code : string).

Inductive validated (A : Type) : Type :=
| Valid (a : A)
| Invalid (e : validation_error).
Arguments Valid {A} a.
Arguments Invalid {A} e.

Fixpoint load_chunk (chunks : list SourceChunk) (chunk_id : string)
    : validated SourceChunk :=
  match chunks with
  | [] => Invalid (ValidationError ("Chunk " +:+ chunk_id +:+ " not found")
                     "CHUNK_NOT_FOUND")
  | chunk :: rest =>
      if decide (sc_chunk_id chunk = Some chunk_id) then Valid chunk
      else load_chunk rest chunk_id
  end.

(** ** Regular expressions of the extractor, on ASCII text *)

Definition is_digit (c : ascii) : bool :=
  let n := nat_of_ascii c in ((48 <=? n) && (n <=? 57))%nat.

(** [\w] *)
Definition is_word (c : ascii) : bool :=
  let n := nat_of_ascii c in
  (((48 <=? n) && (n <=? 57)) || ((65 <=? n) && (n <=? 90))
   || ((97 <=? n) && (n <=? 122)) || (n =? 95))%nat.

Definition is_word_at (c : option ascii) : bool :=
  match c with
  | Some c => is_word c
  | None => false
  end.

(** [\b] between the character before and the character after a position
    ([None] at either end of the text). *)
Definition word_boundary (prev next : option ascii) : bool :=
  xorb (is_word_at prev) (is_word_at next).

Definition head_char (s : string) : option ascii :=
  match s with
  | EmptyString => None
  | String c _ => Some c
  end.

Fixpoint last_char (s : string) : option ascii :=
  match s with
  | EmptyString => None
  | String c EmptyString => Some c
  | String _ s' => last_char s'
  end.

(** The longest prefix of digits, and what follows it. *)
Fixpoint span_digits (s : string) : string * string :=
  match s with
  | EmptyString => (EmptyString, EmptyString)
  | String c s' =>
      if is_digit c
      then let '(ds, rest) := span_digits s' in (String c ds, rest)
      else (EmptyString, s)
  end.

(** A match of [\b(ISM-\d+)\b] that starts here, [prev] being the character
    before.  [\d+] takes all the digits there are; were the closing [\b] to
    fail after them, it would fail after any shorter run too (a digit would
    follow a digit), so there is nothing to backtrack to. *)
Definition match_control (prev : option ascii) (s : string) : option string :=
  if word_boundary prev (head_char s) && starts_with "ISM-" s
  then
    let '(ds, rest) := span_digits (skip 4 s) in
    match ds with
    | EmptyString => None
    | _ => if word_boundary (last_char ds) (head_char rest)
           then Some ("ISM-" +:+ ds) else None
    end
  else None.

(** [re.findall(r'\b(ISM-\d+)\b', content)]: the matches from left to
    right, the search resuming after each match. *)
Fixpoint findall_go (inside : nat) (prev : option ascii) (s : string)
    : list string :=
  match s with
  | EmptyString => []
  | String c s' =>
      match inside with
      | S k => findall_go k (Some c) s'
      | O =>
          match match_control prev s with
          | Some m => m :: findall_go (String.length m - 1) (Some c) s'
          | None => findall_go O (Some c) s'
          end
      end
  end.

Definition findall_controls (content : string) : list string :=
  findall_go O None content.

(** [word] is a prefix of [s] up to letter case. *)
Fixpoint starts_with_ci (word s : string) : bool :=
  match word, s with
  | EmptyString, _ => true
  | String a word', String b s' =>
      if Ascii.eqb (lower_ascii a) (lower_ascii b)
      then starts_with_ci word' s' else false
  | String _ _, EmptyString => false
  end.

(** A match of [\bword\b] with [re.IGNORECASE] that starts here. *)
Definition match_word (word : string) (prev : option ascii) (s : string)
    : bool :=
  word_boundary prev (head_char s)
  && starts_with_ci word s
  && word_boundary (head_char (skip (String.length word - 1) s))
                   (head_char (skip (String.length word) s)).

Fixpoint search_go (word : string) (prev : option ascii) (s : string) : bool :=
  match_word word prev s
  || match s with
     | EmptyString => false
     | String c s' => search_go word (Some c) s'
     end.

(** [re.search(r'\bword\b', content, re.IGNORECASE)] finds a match. *)
Definition search_word (word content : string) : bool :=
  search_go word None content.

(** The [patterns] dictionary, in insertion order: the word of the
    pattern, then the entity id and type. *)
Definition patterns : list (string * (string * string)) :=
  [ ("CISO", ("CISO", "ROLE"));
    ("MFA", ("MFA", "CONCEPT"));
    ("authentication", ("authentication", "CONCEPT"));
    ("encryption", ("encryption", "CONCEPT")) ].

Definition control_entity (control : string) : Entity :=
  {| entity_id := Some control;
     entity_type := Some "CONTROL";
     entity_text := Some ("Control " +:+ control) |}.

Definition concept_entity (p : string * (string * string)) : Entity :=
  {| entity_id := Some (fst (snd p));
     entity_type := Some (snd (snd p));
     entity_text := Some (fst (snd p)) |}.

(** The loop [for i in range(min(len(entities) - 1, 5))]. *)
Definition chain_relationships (entities : list Entity) : list Edge :=
  omap (fun i =>
          e1 ← entities !! i;
          e2 ← entities !! S i;
          Some {| edge_from := entity_id e1;
                  edge_to := entity_id e2;
                  edge_type := Some "RELATES_TO" |})
       (seq 0 (Z.to_nat (Z.min (Z.of_nat (length entities) - 1) 5))).

Definition extract_entities_simple (content chunk_id : string) : ChunkData :=
  let controls := findall_controls content in
  let entities :=
    map control_entity (elements (list_to_set controls : gset string))
    ++ map concept_entity
         (filter (fun p => search_word (fst p) content = true) patterns) in
  {| chunk_id := Some chunk_id;
     entities := Some entities;
     relationships := Some (chain_relationships entities) |}.

(** ** Vocabulary for [extract_graph_entities.py] *)



(** A directory entry holding what the extractor returned. *)
Definition extracted (content chunk_id name : string) : DirEntry :=
  in_chunks name (Parsed (extract_entities_simple content chunk_id)).

Definition extracted_world : World :=
  world_of (Parsed example_graph)
    [ extracted "The CISO mandates MFA (ISM-0974)." "CHUNK-1"
        "entities_CHUNK-1.json";
      extracted "" "CHUNK-2" "entities_CHUNK-2.json" ].


(** ** Tactics *)

Ltac event_cases H :=
  rewrite ?elem_of_cons, ?elem_of_app, ?elem_of_cons, ?elem_of_nil in H;
  repeat match goal with
         | H' : _ ∨ _ |- _ => destruct H'
         | H' : False |- _ => destruct H'
         end;
  try discriminate.

Ltac no_such_event := let H := fresh in intros H; by event_cases H.

Ltac unfold_main :=
  unfold main, invoke, load_graph, open_json, save_result, emit, pure.

(** * Properties *)

(** ** Substring test *)

Lemma starts_with_spec p s :
  starts_with p s = true ↔ ∃ post, s = p +:+ post.
Proof.
  revert s. induction p as [|a p IH]; intros s; simpl.
  - split; [intros _; by exists s | done].
  - destruct s as [|b s].
    + split; [done | intros [post Hpost]; discriminate].
    + destruct (Ascii.eqb_spec a b) as [->|Hne].
      * rewrite IH. split; intros [post Hpost]; exists post.
        -- by rewrite Hpost.
        -- by injection Hpost.
      * split; [done | intros [post Hpost]; injection Hpost; congruence].
Qed.

Lemma contains_unfold needle hay :
  contains needle hay =
  if starts_with needle hay then true
  else match hay with
       | EmptyString => false
       | String _ hay' => contains needle hay'
       end.
Proof. by destruct hay. Qed.

(** [contains] decides [substring_of]: the model of Python's [in] on
    strings is the substring relation. *)
Lemma contains_spec needle hay :
  contains needle hay = true ↔ substring_of needle hay.
Proof.
  unfold substring_of. induction hay as [|c hay IH].
  - rewrite contains_unfold.
    destruct (starts_with needle "") eqn:Hs.
    + apply starts_with_spec in Hs as [post Hpost].
      split; [intros _; by exists "", post | done].
    + split; [done |]. intros (pre & post & Heq).
      destruct pre; [|discriminate]. simpl in Heq.
      assert (starts_with needle "" = true) as Hs'
        by (apply starts_with_spec; eauto).
      congruence.
  - rewrite contains_unfold.
    destruct (starts_with needle (String c hay)) eqn:Hs.
    + apply starts_with_spec in Hs as [post Hpost].
      split; [intros _; by exists "", post | done].
    + rewrite IH. split.
      * intros (pre & post & ->). by exists (String c pre), post.
      * intros (pre & post & Heq). destruct pre as [|c' pre].
        -- simpl in Heq.
           assert (starts_with needle (String c hay) = true) as Hs'
             by (apply starts_with_spec; eauto).
           congruence.
        -- injection Heq as -> ->. eauto.
Qed.

(** ** [search_entities] *)

Lemma scan_terms_first_match node text terms matches :
  scan_terms node text terms matches =
  if existsb (fun term => contains term text) terms
  then matches ++ [node] else matches.
Proof.
  induction terms as [|term terms IH]; simpl; [done |].
  by destruct (contains term text).
Qed.

Lemma existsb_map {A B} (f : A → B) (p : B → bool) (l : list A) :
  existsb p (map f l) = existsb (fun a => p (f a)) l.
Proof. induction l as [|a l IH]; simpl; [done | by rewrite IH]. Qed.

Lemma search_loop_filter terms ns matches :
  fold_left
    (fun matches node =>
       scan_terms node (node_search_text node) (map lower terms) matches)
    ns matches
  = matches ++ filter (fun n => matches_node terms n = true) ns.
Proof.
  revert matches. induction ns as [|n ns IH]; intros matches; simpl.
  - by rewrite filter_nil, app_nil_r.
  - rewrite IH, scan_terms_first_match, existsb_map, filter_cons.
    fold (matches_node terms n).
    destruct (matches_node terms n); simpl.
    + by rewrite <- app_assoc.
    + done.
Qed.

(** The matcher is a filter of the node list. *)
Lemma search_entities_filter G ns terms :
  nodes G = Some ns →
  search_entities G terms
  = Ok (filter (fun n => matches_node terms n = true) ns).
Proof.
  intros Hns. unfold search_entities. rewrite Hns. simpl. unfold mbind, py_result_bind.
  by rewrite search_loop_filter.
Qed.

Lemma matches_node_spec terms n :
  matches_node terms n = true ↔
  ∃ term, term ∈ terms ∧ substring_of (lower term) (node_search_text n).
Proof.
  unfold matches_node. rewrite existsb_exists. split.
  - intros (t & Hin & Hc). exists t. split; [by apply list_elem_of_In |].
    by apply contains_spec.
  - intros (t & Hin & Hc). exists t. split; [by apply list_elem_of_In |].
    by apply contains_spec.
Qed.

(** C5 (as amended).  For a graph with a node list and any query terms, the
    entity matcher returns exactly the nodes for which some lower-cased
    query term is a substring of the lower-cased text made of the node's
    [id], one space, and the node's [text] (an absent field reads as the
    empty string); the matches keep node storage order. *)
Theorem search_entities_spec (G : Graph) (ns : list Node) (terms : list string) :
  nodes G = Some ns →
  ∃ r, search_entities G terms = Ok r
       ∧ r = filter (fun n => matches_node terms n = true) ns
       ∧ ∀ n, n ∈ r ↔
              n ∈ ns ∧
              ∃ term, term ∈ terms ∧
                      substring_of (lower term)
                        (lower (get (node_id n) "" +:+ " "
                                +:+ get (node_text n) "")).
Proof.
  intros Hns. eexists. split; [by apply search_entities_filter |].
  split; [done |]. intros n.
  rewrite list_elem_of_filter, matches_node_spec. unfold node_search_text.
  tauto.
Qed.

Lemma search_entities_spec_witness :
  nodes example_graph
  = Some [ mkNode (Some "A") (Some "CISO role") (Some "ROLE");
           mkNode (Some "B") (Some "MFA concept") (Some "CONCEPT");
           mkNode (Some "C") (Some "unrelated") (Some "CONCEPT") ]
  ∧ ∃ r, search_entities example_graph ["CISO"; "mfa"] = Ok r
       ∧ r = filter (fun n => matches_node ["CISO"; "mfa"] n = true)
               [ mkNode (Some "A") (Some "CISO role") (Some "ROLE");
                 mkNode (Some "B") (Some "MFA concept") (Some "CONCEPT");
                 mkNode (Some "C") (Some "unrelated") (Some "CONCEPT") ]
       ∧ ∀ n, n ∈ r ↔
              n ∈ [ mkNode (Some "A") (Some "CISO role") (Some "ROLE");
                    mkNode (Some "B") (Some "MFA concept") (Some "CONCEPT");
                    mkNode (Some "C") (Some "unrelated") (Some "CONCEPT") ] ∧
              ∃ term, term ∈ ["CISO"; "mfa"] ∧
                      substring_of (lower term)
                        (lower (get (node_id n) "" +:+ " "
                                +:+ get (node_text n) "")).
Proof.
  split; [reflexivity |].
  apply (search_entities_spec example_graph); reflexivity.
Defined.

(** C5 (as stated) fails: the term [ab] is a substring of the identifier
    directly followed by the label of [split_node], yet the matcher, which
    joins them with a space, does not return the node. *)
Lemma search_entities_joined_text_counterexample :
  split_node ∈ get (nodes split_graph) []
  ∧ (∃ term, term ∈ ["ab"] ∧
             substring_of (lower term) (joined_search_text split_node))
  ∧ search_entities split_graph ["ab"] = Ok [].
Proof.
  split; [simpl; set_solver |]. split; [| reflexivity].
  exists "ab". split; [set_solver |]. by exists "", "".
Qed.

Lemma count_occ_filter_le {A} (dec : EqDecision A) (P : A → Prop)
    `{!∀ x, Decision (P x)} (l : list A) (a : A) :
  (count_occ dec (filter P l) a ≤ count_occ dec l a)%nat.
Proof.
  induction l as [|x l IH]; [done |].
  rewrite filter_cons. destruct (decide (P x)); simpl;
    destruct (dec x a); simpl; lia.
Qed.

(** C10.  Each stored node is appended at most once, whatever the number
    of query terms that match it: the result is a sublist of the node
    list, no node occurs in it more often than in the node list, and it is
    duplicate-free when the node list is. *)
Theorem search_entities_at_most_once (G : Graph) (ns : list Node)
    (terms : list string) :
  nodes G = Some ns →
  ∃ r, search_entities G terms = Ok r
       ∧ sublist r ns
       ∧ (∀ n, (count_occ Node_eq_dec r n ≤ count_occ Node_eq_dec ns n)%nat)
       ∧ (NoDup ns → NoDup r).
Proof.
  intros Hns. eexists. split; [by apply search_entities_filter |].
  split; [apply sublist_filter |].
  split; [intros n; apply count_occ_filter_le |].
  apply NoDup_filter.
Qed.

Lemma search_entities_at_most_once_witness :
  nodes twice_graph = Some [twice_node]
  ∧ ∃ r, search_entities twice_graph ["ab"; "cd"; "b"] = Ok r
       ∧ sublist r [twice_node]
       ∧ (∀ n, (count_occ Node_eq_dec r n
                ≤ count_occ Node_eq_dec [twice_node] n)%nat)
       ∧ (NoDup [twice_node] → NoDup r).
Proof.
  split; [reflexivity |].
  apply (search_entities_at_most_once twice_graph); reflexivity.
Defined.

(** Three terms match [twice_node]; it is returned once. *)
Example search_entities_three_terms_one_match :
  search_entities twice_graph ["ab"; "cd"; "b"] = Ok [twice_node].
Proof. reflexivity. Qed.

Example search_entities_example_graph :
  search_entities example_graph (split (lower "CISO"))
  = Ok [mkNode (Some "A") (Some "CISO role") (Some "ROLE")].
Proof. reflexivity. Qed.

(** ** [get_related_entities] *)

Lemma scan_edge_ok (R acc : gset string) (e : Edge) (f t : string) :
  edge_from e = Some f → edge_to e = Some t →
  ∃ new, scan_edge R acc e = Ok new
         ∧ ∀ x, x ∈ new ↔ x ∈ acc ∨ (f ∈ R ∧ x = t) ∨ (t ∈ R ∧ x = f).
Proof.
  intros Hf Ht. unfold scan_edge. rewrite Hf, Ht. simpl.
  destruct (decide (f ∈ R)), (decide (t ∈ R)); simpl;
    (eexists; split;
       [reflexivity
       | intros x; rewrite ?elem_of_union, ?elem_of_singleton; tauto]).
Qed.

(** One full edge scan collects the neighbours of the working set, and
    nothing else; the working set itself is not touched during the scan. *)
Lemma edge_scan_neighbours (R : gset string) (es : list Edge) :
  Forall edge_ok es →
  ∀ acc, ∃ new, foldM (scan_edge R) acc es = Ok new
                ∧ ∀ x, x ∈ new ↔ x ∈ acc ∨ ∃ y, y ∈ R ∧ adjacent es y x.
Proof.
  induction 1 as [|e es [[f Hf] [t Ht]] Hes IH]; intros acc.
  - exists acc. split; [done |]. intros x. split; [by left |].
    intros [?|(y & _ & e & He & _)]; [done |]. by apply elem_of_nil in He.
  - destruct (scan_edge_ok R acc e f t Hf Ht) as (acc' & Hacc' & Hin').
    destruct (IH acc') as (new & Hnew & Hin).
    exists new. split; [simpl; by rewrite Hacc' |].
    intros x. rewrite Hin, Hin'. unfold adjacent. split.
    + intros [[?|[[? ->]|[? ->]]]|(y & Hy & e' & He' & Hadj)].
      * by left.
      * right. exists f. split; [done |]. exists e. split; [left | tauto].
      * right. exists t. split; [done |]. exists e. split; [left | tauto].
      * right. exists y. split; [done |]. exists e'. split; [by right | done].
    + intros [?|(y & Hy & e' & He' & Hadj)]; [tauto |].
      apply elem_of_cons in He' as [->|He'].
      * left. right. destruct Hadj as [[Hy1 Hx]|[Hx Hy1]];
          rewrite Hf in *; rewrite Ht in *;
          simplify_eq; tauto.
      * right. exists y. split; [done |]. by exists e'.
Qed.

Lemma hop_rounds_walks (G : Graph) (es : list Edge) :
  edges G = Some es → Forall edge_ok es →
  ∀ n R, ∃ R', hop_rounds n G R = Ok R'
               ∧ ∀ x, x ∈ R' ↔ ∃ s k, s ∈ R ∧ (k ≤ n)%nat ∧ walk es k s x.
Proof.
  intros Hes Hok. induction n as [|n IH]; intros R.
  - exists R. split; [done |]. intros x. split.
    + intros Hx. exists x, O. eauto using walk.
    + intros (s & k & Hs & Hk & Hw). destruct Hw; [done | lia].
  - destruct (edge_scan_neighbours R es Hok ∅) as (new & Hnew & Hin).
    destruct (IH (R ∪ new)) as (R' & HR' & Hin').
    exists R'. split; [simpl; rewrite Hes; simpl; by rewrite Hnew |].
    intros x. rewrite Hin'. split.
    + intros (s & k & Hs & Hk & Hw).
      apply elem_of_union in Hs as [Hs|Hs].
      * exists s, k. split; [done |]. split; [lia | done].
      * apply Hin in Hs as [Hs|(y & Hy & Hadj)];
          [by apply not_elem_of_empty in Hs |].
        exists y, (S k). split; [done |]. split; [lia |].
        by apply walk_step with s.
    + intros (s & k & Hs & Hk & Hw). destruct Hw as [x|k x y z Hadj Hw].
      * exists x, O. split; [by apply elem_of_union_l |].
        split; [lia | constructor].
      * exists y, k. split; [| split; [lia | done]].
        apply elem_of_union_r, Hin. right. eauto.
Qed.

Lemma walk_snoc es k x y z :
  walk es k x y → adjacent es y z → walk es (S k) x z.
Proof.
  induction 1 as [x|k x y' y Hadj Hw IH]; intros Hyz.
  - apply walk_step with z; [done | constructor].
  - apply walk_step with y'; [done | by apply IH].
Qed.

Lemma walk_last es k x z :
  walk es (S k) x z → ∃ y, walk es k x y ∧ adjacent es y z.
Proof.
  revert x. induction k as [|k IH]; intros x Hw.
  - inversion Hw as [|k' x' y z' Hadj Hw']; subst.
    inversion Hw'; subst. exists x. split; [constructor | done].
  - inversion Hw as [|k' x' y z' Hadj Hw']; subst.
    destruct (IH _ Hw') as (y' & Hw'' & Hadj').
    exists y'. split; [by apply walk_step with y | done].
Qed.

(** The expander computes the ball of radius [depth] around the seeds. *)
Lemma get_related_entities_ball (G : Graph) (es : list Edge)
    (ids : list string) (h : Z) :
  edges G = Some es → Forall edge_ok es →
  ∃ r, get_related_entities G ids h = Ok r
       ∧ NoDup r
       ∧ ∀ x, x ∈ r ↔ within_distance es ids (Z.to_nat h) x.
Proof.
  intros Hes Hok.
  destruct (hop_rounds_walks G es Hes Hok (Z.to_nat h) (list_to_set ids))
    as (R' & HR' & Hin).
  exists (elements R'). unfold get_related_entities. rewrite HR'.
  split; [done |]. split; [apply NoDup_elements |].
  intros x. rewrite elem_of_elements, Hin. unfold within_distance.
  split; intros (s & k & Hs & Hrest); exists s, k.
  - split; [by apply elem_of_list_to_set in Hs | done].
  - split; [by apply elem_of_list_to_set | done].
Qed.

Lemma get_related_entities_zero (G : Graph) (ids : list string) :
  get_related_entities G ids 0 = Ok (elements (list_to_set ids : gset string)).
Proof. reflexivity. Qed.

Lemma chain_graph_edges_ok :
  Forall edge_ok chain_edges.
Proof. repeat constructor; by eexists. Qed.

Lemma within_distance_mono es ids (h h' : nat) x :
  (h ≤ h')%nat → within_distance es ids h x → within_distance es ids h' x.
Proof.
  intros Hle (s & k & Hs & Hk & Hw). exists s, k.
  split; [done |]. split; [lia | done].
Qed.

Lemma within_distance_succ es ids (h : nat) x :
  within_distance es ids (S h) x ↔
  within_distance es ids h x
  ∨ ∃ y, within_distance es ids h y ∧ adjacent es y x.
Proof.
  split.
  - intros (s & k & Hs & Hk & Hw). destruct k as [|k].
    + left. exists s, O. split; [done |]. split; [lia | done].
    + apply walk_last in Hw as (y & Hw & Hadj).
      right. exists y. split; [| done].
      exists s, k. split; [done |]. split; [lia | done].
  - intros [Hx|(y & (s & k & Hs & Hk & Hw) & Hadj)].
    + apply within_distance_mono with h; [lia | done].
    + exists s, (S k). split; [done |]. split; [lia |].
      by apply walk_snoc with y.
Qed.

(** C2.  On a graph whose edges carry both endpoints, the expander returns
    exactly the identifiers at undirected edge-distance at most [h] from the
    seeds.  The rounds are level-synchronous: the result for [h + 1] is the
    result for [h] together with the direct neighbours of the result for
    [h], so what one round adds is traversed from only in the next one.  On
    the chain A-B-C with seed A and two hops the result is A, B, C. *)
Theorem get_related_entities_bfs :
  (∀ (G : Graph) (es : list Edge) (ids : list string) (h : Z),
     edges G = Some es → Forall edge_ok es → 0 ≤ h →
     ∃ r, get_related_entities G ids h = Ok r
          ∧ (∀ x, x ∈ r ↔ within_distance es ids (Z.to_nat h) x)
          ∧ ∃ r', get_related_entities G ids (h + 1) = Ok r'
                  ∧ ∀ x, x ∈ r' ↔ x ∈ r ∨ ∃ y, y ∈ r ∧ adjacent es y x)
  ∧ (∃ r, get_related_entities chain_graph ["A"] 2 = Ok r
          ∧ ∀ x, x ∈ r ↔ x ∈ ["A"; "B"; "C"]).
Proof.
  split.
  - intros G es ids h Hes Hok Hh.
    destruct (get_related_entities_ball G es ids h Hes Hok)
      as (r & Hr & _ & Hin).
    destruct (get_related_entities_ball G es ids (h + 1) Hes Hok)
      as (r' & Hr' & _ & Hin').
    exists r. split; [done |]. split; [done |].
    exists r'. split; [done |]. intros x.
    rewrite Hin'. replace (Z.to_nat (h + 1)) with (S (Z.to_nat h)) by lia.
    rewrite within_distance_succ, Hin.
    split; (intros [?|(y & Hy & Hadj)]; [by left | right; exists y]);
      (split; [by apply Hin | done]).
  - eexists. split; [vm_compute; reflexivity |].
    intros x. rewrite !elem_of_cons, !elem_of_nil. tauto.
Qed.

Lemma get_related_entities_bfs_witness :
  edges chain_graph = Some chain_edges
  ∧ Forall edge_ok chain_edges
  ∧ 0 ≤ 1
  ∧ ∃ r, get_related_entities chain_graph ["A"] 1 = Ok r
         ∧ (∀ x, x ∈ r ↔ within_distance chain_edges ["A"] (Z.to_nat 1) x)
         ∧ ∃ r', get_related_entities chain_graph ["A"] (1 + 1) = Ok r'
                 ∧ ∀ x, x ∈ r' ↔
                        x ∈ r ∨ ∃ y, y ∈ r ∧ adjacent chain_edges y x.
Proof.
  split; [reflexivity |]. split; [apply chain_graph_edges_ok |].
  split; [lia |].
  apply (proj1 get_related_entities_bfs chain_graph chain_edges);
    [reflexivity | apply chain_graph_edges_ok | lia].
Defined.

(** One hop from A on the chain reaches B and not C. *)
Example get_related_entities_chain_one_hop :
  ∃ r, get_related_entities chain_graph ["A"] 1 = Ok r
       ∧ ∀ x, x ∈ r ↔ x ∈ ["A"; "B"].
Proof.
  eexists. split; [vm_compute; reflexivity |].
  intros x. rewrite !elem_of_cons, !elem_of_nil. tauto.
Qed.

(** C7.  On a graph whose edges carry both endpoints, the result of the
    expander grows with the hop budget: what [h] hops reach, [h + 1] hops
    reach too. *)
Theorem get_related_entities_monotone (G : Graph) (es : list Edge)
    (ids : list string) (h : Z) :
  edges G = Some es → Forall edge_ok es →
  ∃ r1 r2, get_related_entities G ids h = Ok r1
           ∧ get_related_entities G ids (h + 1) = Ok r2
           ∧ ∀ x, x ∈ r1 → x ∈ r2.
Proof.
  intros Hes Hok.
  destruct (get_related_entities_ball G es ids h Hes Hok)
    as (r1 & Hr1 & _ & Hin1).
  destruct (get_related_entities_ball G es ids (h + 1) Hes Hok)
    as (r2 & Hr2 & _ & Hin2).
  exists r1, r2. split; [done |]. split; [done |].
  intros x Hx. apply Hin2. apply Hin1 in Hx.
  apply within_distance_mono with (Z.to_nat h); [lia | done].
Qed.

Lemma get_related_entities_monotone_witness :
  edges chain_graph = Some chain_edges
  ∧ Forall edge_ok chain_edges
  ∧ ∃ r1 r2, get_related_entities chain_graph ["A"] 1 = Ok r1
             ∧ get_related_entities chain_graph ["A"] (1 + 1) = Ok r2
             ∧ ∀ x, x ∈ r1 → x ∈ r2.
Proof.
  split; [reflexivity |]. split; [apply chain_graph_edges_ok |].
  apply (get_related_entities_monotone chain_graph chain_edges ["A"] 1);
    [reflexivity | apply chain_graph_edges_ok].
Defined.

(** C8.  On a graph whose edges carry both endpoints the expander keeps
    every seed, for any hop budget; with a budget of zero it returns the
    seeds and nothing else, on any graph. *)
Theorem get_related_entities_keeps_seeds :
  (∀ (G : Graph) (es : list Edge) (ids : list string) (h : Z),
     edges G = Some es → Forall edge_ok es →
     ∃ r, get_related_entities G ids h = Ok r ∧ ∀ x, x ∈ ids → x ∈ r)
  ∧ (∀ (G : Graph) (ids : list string),
       ∃ r, get_related_entities G ids 0 = Ok r
            ∧ NoDup r ∧ ∀ x, x ∈ r ↔ x ∈ ids).
Proof.
  split.
  - intros G es ids h Hes Hok.
    destruct (get_related_entities_ball G es ids h Hes Hok)
      as (r & Hr & _ & Hin).
    exists r. split; [done |]. intros x Hx. apply Hin.
    exists x, O. split; [done |]. split; [lia | constructor].
  - intros G ids. eexists. split; [apply get_related_entities_zero |].
    split; [apply NoDup_elements |].
    intros x. by rewrite elem_of_elements, elem_of_list_to_set.
Qed.

Lemma get_related_entities_keeps_seeds_witness :
  edges chain_graph = Some chain_edges
  ∧ Forall edge_ok chain_edges
  ∧ ∃ r, get_related_entities chain_graph ["B"; "Z"] 5 = Ok r
         ∧ ∀ x, x ∈ ["B"; "Z"] → x ∈ r.
Proof.
  split; [reflexivity |]. split; [apply chain_graph_edges_ok |].
  apply (proj1 get_related_entities_keeps_seeds chain_graph chain_edges
           ["B"; "Z"] 5);
    [reflexivity | apply chain_graph_edges_ok].
Defined.

(** ** [get_subgraph] *)

Lemma filterM_filter {A} (p : A → py_result bool) (q : A → bool) (l : list A) :
  Forall (fun x => p x = Ok (q x)) l →
  filterM p l = Ok (filter (fun x => q x = true) l).
Proof.
  induction 1 as [|x l Hx Hl IH]; [done |].
  simpl. rewrite Hx, IH. simpl. rewrite filter_cons.
  by destruct (q x).
Qed.

Lemma node_selected_ok E n :
  node_ok n → node_selected E n = Ok (id_in E (node_id n)).
Proof. intros [i Hi]. unfold node_selected. by rewrite Hi. Qed.

Lemma edge_selected_ok E e :
  edge_ok e →
  edge_selected E e = Ok (id_in E (edge_from e) && id_in E (edge_to e)).
Proof.
  intros [[f Hf] [t Ht]]. unfold edge_selected. rewrite Hf, Ht. simpl.
  by destruct (bool_decide (f ∈ E)).
Qed.

Lemma id_in_spec E field :
  id_in E field = true ↔ ∃ i, field = Some i ∧ i ∈ E.
Proof.
  destruct field as [i|]; simpl.
  - rewrite bool_decide_eq_true. split; [eauto |].
    by intros (? & [= <-] & ?).
  - split; [done | by intros (? & ? & ?)].
Qed.

(** On a graph whose objects carry the keys the builder reads, the builder
    is two filters. *)
Lemma get_subgraph_filter (G : Graph) (ns : list Node) (es : list Edge)
    (E : list string) :
  nodes G = Some ns → edges G = Some es →
  Forall node_ok ns → Forall edge_ok es →
  get_subgraph G E
  = Ok {| sg_nodes := filter (fun n => id_in E (node_id n) = true) ns;
          sg_edges := filter (fun e => id_in E (edge_from e)
                                       && id_in E (edge_to e) = true) es |}.
Proof.
  intros Hns Hes Hnok Heok. unfold get_subgraph. rewrite Hns, Hes. simpl.
  rewrite (filterM_filter _ (fun n => id_in E (node_id n))).
  2:{ eapply Forall_impl; [exact Hnok |]. intros n. apply node_selected_ok. }
  simpl.
  rewrite (filterM_filter _
             (fun e => id_in E (edge_from e) && id_in E (edge_to e))).
  2:{ eapply Forall_impl; [exact Heok |]. intros e. apply edge_selected_ok. }
  done.
Qed.

Lemma selected_edge_spec E e :
  id_in E (edge_from e) && id_in E (edge_to e) = true ↔
  ∃ f t, edge_from e = Some f ∧ edge_to e = Some t ∧ f ∈ E ∧ t ∈ E.
Proof.
  rewrite andb_true_iff, !id_in_spec. split.
  - intros [(f & Hf & HfE) (t & Ht & HtE)]. eauto 10.
  - intros (f & t & Hf & Ht & HfE & HtE). eauto 10.
Qed.

(** C1 (as amended).  On a graph whose nodes carry an [id] and whose edges
    carry both endpoints, the subgraph builder returns as node list the
    nodes whose id is in [E], in storage order, and as edge list the edges
    whose two endpoints are both in [E], in storage order, whether or not
    a node of the graph carries these endpoints. *)
Theorem get_subgraph_spec (G : Graph) (ns : list Node) (es : list Edge)
    (E : list string) :
  nodes G = Some ns → edges G = Some es →
  Forall node_ok ns → Forall edge_ok es →
  ∃ sg,
    get_subgraph G E = Ok sg
    ∧ sg_nodes sg = filter (fun n => id_in E (node_id n) = true) ns
    ∧ sg_edges sg = filter (fun e => id_in E (edge_from e)
                                     && id_in E (edge_to e) = true) es
    ∧ (∀ n, n ∈ sg_nodes sg ↔ n ∈ ns ∧ ∃ i, node_id n = Some i ∧ i ∈ E)
    ∧ (∀ e, e ∈ sg_edges sg ↔
            e ∈ es ∧ ∃ f t, edge_from e = Some f ∧ edge_to e = Some t
                            ∧ f ∈ E ∧ t ∈ E).
Proof.
  intros Hns Hes Hnok Heok. eexists.
  split; [by apply get_subgraph_filter |]. simpl.
  split; [done |]. split; [done |]. split.
  - intros n. rewrite list_elem_of_filter, id_in_spec. tauto.
  - intros e. rewrite list_elem_of_filter, selected_edge_spec. tauto.
Qed.

Lemma get_subgraph_spec_witness :
  nodes example_graph = Some (get (nodes example_graph) [])
  ∧ edges example_graph = Some (get (edges example_graph) [])
  ∧ Forall node_ok (get (nodes example_graph) [])
  ∧ Forall edge_ok (get (edges example_graph) [])
  ∧ ∃ sg,
      get_subgraph example_graph ["A"; "B"] = Ok sg
      ∧ sg_nodes sg = filter (fun n => id_in ["A"; "B"] (node_id n) = true)
                        (get (nodes example_graph) [])
      ∧ sg_edges sg = filter (fun e => id_in ["A"; "B"] (edge_from e)
                                       && id_in ["A"; "B"] (edge_to e) = true)
                        (get (edges example_graph) [])
      ∧ (∀ n, n ∈ sg_nodes sg ↔
              n ∈ get (nodes example_graph) []
              ∧ ∃ i, node_id n = Some i ∧ i ∈ ["A"; "B"])
      ∧ (∀ e, e ∈ sg_edges sg ↔
              e ∈ get (edges example_graph) []
              ∧ ∃ f t, edge_from e = Some f ∧ edge_to e = Some t
                       ∧ f ∈ ["A"; "B"] ∧ t ∈ ["A"; "B"]).
Proof.
  assert (Forall node_ok (get (nodes example_graph) [])) as Hn
    by (repeat constructor; by eexists).
  assert (Forall edge_ok (get (edges example_graph) [])) as He
    by (repeat constructor; by eexists).
  split; [reflexivity |]. split; [reflexivity |].
  split; [exact Hn |]. split; [exact He |].
  apply (get_subgraph_spec example_graph);
    [reflexivity | reflexivity | exact Hn | exact He].
Defined.

(** When every edge joins identifiers that nodes of the graph carry, the
    selected edges are also those with both endpoints among the
    identifiers of [E] present in the graph. *)
Lemma get_subgraph_closed_graph (G : Graph) (ns : list Node) (es : list Edge)
    (E : list string) :
  nodes G = Some ns → edges G = Some es →
  Forall node_ok ns → Forall edge_ok es →
  Forall (fun e => ∀ x, edge_from e = Some x ∨ edge_to e = Some x →
                        x ∈ node_ids ns) es →
  ∃ sg,
    get_subgraph G E = Ok sg
    ∧ ∀ e, e ∈ sg_edges sg ↔
           e ∈ es ∧ ∃ f t, edge_from e = Some f ∧ edge_to e = Some t
                           ∧ (f ∈ E ∧ f ∈ node_ids ns)
                           ∧ (t ∈ E ∧ t ∈ node_ids ns).
Proof.
  intros Hns Hes Hnok Heok Hclosed. eexists.
  split; [by apply get_subgraph_filter |]. simpl.
  intros e. rewrite list_elem_of_filter, selected_edge_spec.
  rewrite Forall_forall in Hclosed. split.
  - intros [(f & t & Hf & Ht & HfE & HtE) He]. split; [done |].
    exists f, t. specialize (Hclosed e He). naive_solver.
  - intros [He (f & t & Hf & Ht & [HfE _] & [HtE _])]. eauto 10.
Qed.

(** The scenario of the specification: two nodes, one edge, C left out. *)
Example get_subgraph_example_graph :
  get_subgraph example_graph ["A"; "B"]
  = Ok {| sg_nodes := [ mkNode (Some "A") (Some "CISO role") (Some "ROLE");
                        mkNode (Some "B") (Some "MFA concept") (Some "CONCEPT") ];
          sg_edges := [ mkEdge (Some "A") (Some "B") (Some "RELATES_TO") ] |}.
Proof. reflexivity. Qed.

(** C1 (as stated) fails: the edge from A to X is in the induced subgraph
    of [dangling_graph] on the set A, X, although no node of the graph
    carries the identifier X, so X is not in the intersection of the set
    with the identifiers present in the graph. *)
Lemma get_subgraph_dangling_counterexample :
  ∃ sg e,
    get_subgraph dangling_graph ["A"; "X"] = Ok sg
    ∧ e ∈ sg_edges sg
    ∧ edge_to e = Some "X"
    ∧ "X" ∉ node_ids (get (nodes dangling_graph) []).
Proof.
  do 2 eexists. split; [reflexivity |].
  split; [apply list_elem_of_here |]. split; [reflexivity |].
  simpl. rewrite list_elem_of_singleton. discriminate.
Qed.

(** The set A, X is what the expander returns on [dangling_graph] from the
    seed A after one hop: the pipeline passes such sets to the builder. *)
Example get_related_entities_dangling :
  ∃ r, get_related_entities dangling_graph ["A"] 1 = Ok r
       ∧ ∀ x, x ∈ r ↔ x ∈ ["A"; "X"].
Proof.
  eexists. split; [vm_compute; reflexivity |].
  intros x. rewrite !elem_of_cons, !elem_of_nil. tauto.
Qed.

(** ** Runs: outcome and trace of a sequence *)

Lemma outcome_bind {A B} (m : io A) (f : A → io B) :
  outcome (m ≫= f) = (outcome m ≫= fun a => outcome (f a)).
Proof. destruct m as [[a|e] t]; simpl; [by destruct (f a) | done]. Qed.

Lemma trace_bind {A B} (m : io A) (f : A → io B) :
  trace (m ≫= f)
  = trace m ++ match outcome m with
               | Ok a => trace (f a)
               | Err _ => []
               end.
Proof.
  destruct m as [[a|e] t]; simpl; [by destruct (f a) | by rewrite app_nil_r].
Qed.

Lemma for_each_outcome {A S} (body : S → A → io S) (s : S) (l : list A) :
  outcome (for_each body s l) = foldM (fun s x => outcome (body s x)) s l.
Proof.
  revert s. induction l as [|x l IH]; intros s; [done |].
  simpl. rewrite outcome_bind. destruct (outcome (body s x)); simpl; [apply IH | done].
Qed.

Lemma foldM_app {A S} (body : S → A → py_result S) (s : S) (l1 l2 : list A) :
  foldM body s (l1 ++ l2) = (foldM body s l1 ≫= fun s' => foldM body s' l2).
Proof.
  revert s. induction l1 as [|x l1 IH]; intros s; [done |].
  simpl. destruct (body s x); simpl; [apply IH | done].
Qed.

Lemma foldM_raises {A S} (body : S → A → py_result S) (x : A) (l : list A) :
  (∀ s, ∃ err, body s x = Err err) → x ∈ l →
  ∀ s, ∃ err, foldM body s l = Err err.
Proof.
  intros Hx. induction 1 as [x l|x y l Hin IH]; intros s; simpl.
  - destruct (Hx s) as [err ->]. by exists err.
  - destruct (body s y) as [s'|err]; simpl; [by apply IH | by exists err].
Qed.

(** ** [find_chunks_with_entities] *)

Lemma scan_chunk_file_outcome ids chunks d :
  outcome (scan_chunk_file ids chunks d)
  = match entry_file d with
    | Parsed data => scan_chunk ids chunks (entry_path d) data
    | Absent => Err (FileNotFoundError (entry_path d))
    | Unreadable => Err (OSError (entry_path d))
    | Malformed => Err (JSONDecodeError (entry_path d))
    end.
Proof. unfold scan_chunk_file, open_json. by destruct (entry_file d). Qed.

Lemma find_chunks_with_entities_outcome w ids dir :
  outcome (find_chunks_with_entities w ids dir)
  = foldM (fun chunks d => outcome (scan_chunk_file ids chunks d)) []
      (chunk_artifacts w dir).
Proof.
  unfold find_chunks_with_entities, glob. rewrite !outcome_bind. simpl.
  apply for_each_outcome.
Qed.

Lemma entity_ids_ok (ents : list Entity) :
  Forall (fun e => is_Some (entity_id e)) ents →
  mapM' (fun e => getitem "id" (entity_id e)) ents = Ok (omap entity_id ents).
Proof.
  induction 1 as [|e ents [i Hi] Hents IH]; [done |].
  simpl. by rewrite Hi, IH.
Qed.

Lemma any_in_spec ids cids :
  any_in ids cids = true ↔ Exists (fun x => x ∈ cids) ids.
Proof.
  unfold any_in. rewrite existsb_exists, Exists_exists.
  split; intros (x & Hx & Hin); exists x.
  - split; [by apply list_elem_of_In | by apply bool_decide_eq_true in Hin].
  - split; [by apply list_elem_of_In | by apply bool_decide_eq_true].
Qed.

Lemma any_in_nil ids : any_in ids [] = false.
Proof.
  apply not_true_is_false. rewrite any_in_spec, Exists_exists.
  intros (x & _ & Hx). by apply elem_of_nil in Hx.
Qed.

(** An artifact without [entities] is passed over. *)
Lemma scan_chunk_no_entities ids chunks path data :
  entities data = None → scan_chunk ids chunks path data = Ok chunks.
Proof. intros H. unfold scan_chunk. rewrite H. simpl. by rewrite any_in_nil. Qed.

Lemma scan_chunk_file_ok ids chunks d :
  artifact_ok ids d →
  ∃ cs, outcome (scan_chunk_file ids chunks d) = Ok (chunks ++ cs)
        ∧ Forall2 record_of cs (filter (hits ids) [d]).
Proof.
  intros (data & Hdata & Hents & Hcid).
  rewrite scan_chunk_file_outcome, Hdata. unfold scan_chunk.
  rewrite (entity_ids_ok _ Hents). simpl.
  assert (artifact_ids d = omap entity_id (get (entities data) [])) as Hids
    by (unfold artifact_ids; by rewrite Hdata).
  rewrite filter_cons, filter_nil.
  destruct (any_in ids (omap entity_id (get (entities data) []))) eqn:Hany.
  - apply any_in_spec in Hany. rewrite <- Hids in Hany.
    destruct (decide (hits ids d)) as [Hhit|Hno]; [| done].
    destruct (Hcid Hhit) as [cid Hc]. rewrite Hc. simpl.
    destruct (entities data) as [ents|] eqn:He.
    + simpl. eexists. split; [reflexivity |].
      constructor; [| constructor].
      exists data. simpl. by rewrite He.
    + exfalso. unfold hits in Hhit. rewrite Hids in Hhit. simpl in Hhit.
      apply Exists_exists in Hhit as (x & _ & Hx). by apply elem_of_nil in Hx.
  - destruct (decide (hits ids d)) as [Hhit|Hno].
    + unfold hits in Hhit. rewrite Hids in Hhit.
      apply any_in_spec in Hhit. congruence.
    + exists []. by rewrite app_nil_r.
Qed.

Lemma scan_chunk_files_ok ids (ds : list DirEntry) :
  Forall (artifact_ok ids) ds →
  ∀ chunks, ∃ cs,
    foldM (fun chunks d => outcome (scan_chunk_file ids chunks d)) chunks ds
    = Ok (chunks ++ cs)
    ∧ Forall2 record_of cs (filter (hits ids) ds).
Proof.
  induction 1 as [|d ds Hd Hds IH]; intros chunks.
  - exists []. by rewrite app_nil_r.
  - destruct (scan_chunk_file_ok ids chunks d Hd) as (cs1 & H1 & Hrec1).
    destruct (IH (chunks ++ cs1)) as (cs2 & H2 & Hrec2).
    exists (cs1 ++ cs2). simpl. rewrite H1. simpl. rewrite H2.
    split; [by rewrite app_assoc |].
    change (d :: ds) with ([d] ++ ds). rewrite filter_app.
    by apply Forall2_app.
Qed.

Lemma scan_chunk_file_trace ids chunks d :
  trace (scan_chunk_file ids chunks d) = [EvOpen (entry_path d)].
Proof. unfold scan_chunk_file, open_json. by destruct (entry_file d). Qed.

Lemma for_each_scan_trace ids (ds : list DirEntry) chunks :
  Forall reads_only (trace (for_each (scan_chunk_file ids) chunks ds)).
Proof.
  revert chunks. induction ds as [|d ds IH]; intros chunks; [constructor |].
  simpl. rewrite trace_bind, scan_chunk_file_trace.
  constructor; [done |]. destruct (outcome _); [apply IH | constructor].
Qed.

(** The locator only reads: it scans the directory and opens artifacts. *)
Lemma find_chunks_with_entities_trace w ids dir :
  Forall reads_only (trace (find_chunks_with_entities w ids dir)).
Proof.
  unfold find_chunks_with_entities, glob. rewrite !trace_bind. simpl.
  constructor; [done |]. apply for_each_scan_trace.
Qed.

Lemma reads_only_in (e : event) (t : list event) :
  Forall reads_only t → e ∈ t → reads_only e.
Proof. rewrite Forall_forall. auto. Qed.

(** The locator raises as soon as an enumerated artifact is not valid JSON. *)
Lemma find_chunks_with_entities_raises w ids dir d :
  d ∈ chunk_artifacts w dir → entry_file d = Malformed →
  ∃ err, outcome (find_chunks_with_entities w ids dir) = Err err.
Proof.
  intros Hin Hbad. rewrite find_chunks_with_entities_outcome.
  apply foldM_raises with d; [| done].
  intros chunks. rewrite scan_chunk_file_outcome, Hbad. eauto.
Qed.

(** ** [main] *)

(** A success result is written only after every stage has returned, and
    it embeds what the stages returned. *)
Lemma main_success_inv w query gf dir out depth r :
  EvWrite out (Success r) ∈ trace (main w query gf dir out depth) →
  ∃ g ms ids related cs sg,
    graph_files w gf = Parsed g
    ∧ search_entities g (split (lower query)) = Ok ms
    ∧ mapM' (fun e => getitem "id" (node_id e)) ms = Ok ids
    ∧ get_related_entities g ids (get depth 2) = Ok related
    ∧ outcome (find_chunks_with_entities w related dir) = Ok cs
    ∧ get_subgraph g related = Ok sg
    ∧ sr_chunks r = take 20 cs
    ∧ sr_relevant_chunks r = length cs.
Proof.
  unfold_main.
  destruct (graph_files w gf) as [| | |g] eqn:Hg; simpl; [no_such_event.. |].
  destruct (search_entities g (split (lower query))) as [ms|err] eqn:Hms;
    simpl; [| no_such_event].
  destruct ms as [|m ms].
  { simpl. destruct (write_outcome w out); simpl; no_such_event. }
  remember (m :: ms) as matches eqn:Hmatches.
  destruct (mapM' (fun e => getitem "id" (node_id e)) matches)
    as [ids|err] eqn:Hids; simpl; [| no_such_event].
  destruct (get_related_entities g ids (get depth 2)) as [related|err]
    eqn:Hrel; simpl; [| no_such_event].
  pose proof (find_chunks_with_entities_trace w related dir) as Hreads.
  destruct (find_chunks_with_entities w related dir) as [[cs|err] t] eqn:Hcs;
    simpl in *.
  2:{ intros H. event_cases H. by apply (reads_only_in _ _ Hreads) in H. }
  destruct (get_subgraph g related) as [sg|err] eqn:Hsg; simpl.
  2:{ intros H. event_cases H. by apply (reads_only_in _ _ Hreads) in H. }
  destruct (write_outcome w out) as [err|] eqn:Hw; simpl;
    intros H; event_cases H;
    try (by apply (reads_only_in _ _ Hreads) in H).
  injection H as ->.
  exists g, matches, ids, related, cs, sg. rewrite Hcs. by repeat split.
Qed.

(** C6.  With no query term the matcher returns no node.  Whenever the
    matcher returns no node, the run writes a result whose status is
    [no_matches], carrying the query and the three fixed suggestions, and
    its trace holds nothing but loading the graph, the call of the matcher
    and the output: the expander, the chunk locator and the subgraph
    builder are not called and the chunk directory is not scanned. *)
Theorem main_no_matches :
  (∀ (ns : list Node) (es : option (list Edge)),
     search_entities {| nodes := Some ns; edges := es |} [] = Ok [])
  ∧ (∀ (w : World) (query gf dir out : string) (depth : option Z) (g : Graph),
       graph_files w gf = Parsed g →
       search_entities g (split (lower query)) = Ok [] →
       status (no_match_result query) = "no_matches"
       ∧ Forall (fun e => ¬ query_stage e)
           (trace (main w query gf dir out depth))
       ∧ trace (main w query gf dir out depth)
         = [EvCall F_load_graph; EvOpen gf; EvCall F_search_entities]
           ++ match write_outcome w out with
              | None => [ EvWrite out (no_match_result query);
                          EvPrint (no_match_summary query out) ]
              | Some _ => []
              end).
Proof.
  split.
  - intros ns es. rewrite (search_entities_filter _ ns) by done. f_equal.
    induction ns as [|n ns IH]; [done |].
    rewrite filter_cons. simpl. by destruct (decide (false = true)).
  - intros w query gf dir out depth g Hg Hms.
    split; [reflexivity |].
    unfold_main. rewrite Hg. simpl. rewrite Hms. simpl.
    destruct (write_outcome w out); simpl;
      (split; [repeat constructor; by intros [] | reflexivity]).
Qed.

Lemma main_no_matches_witness :
  graph_files example_world "graph.json" = Parsed example_graph
  ∧ search_entities example_graph (split (lower "")) = Ok []
  ∧ status (no_match_result "") = "no_matches"
  ∧ Forall (fun e => ¬ query_stage e)
      (trace (main example_world "" "graph.json" "chunks" "out/result.json" None))
  ∧ trace (main example_world "" "graph.json" "chunks" "out/result.json" None)
    = [EvCall F_load_graph; EvOpen "graph.json"; EvCall F_search_entities]
      ++ match write_outcome example_world "out/result.json" with
         | None => [ EvWrite "out/result.json" (no_match_result "");
                     EvPrint (no_match_summary "" "out/result.json") ]
         | Some _ => []
         end.
Proof.
  split; [reflexivity |]. split; [reflexivity |].
  apply (proj2 main_no_matches example_world "" "graph.json" "chunks"
           "out/result.json" None example_graph); reflexivity.
Defined.

(** The scenario of the specification: a query that matches nothing. *)
Example main_query_zzz :
  main example_world "zzz" "graph.json" "chunks" "out/result.json" None
  = IO (Ok (no_match_summary "zzz" "out/result.json"))
       [ EvCall F_load_graph; EvOpen "graph.json"; EvCall F_search_entities;
         EvWrite "out/result.json" (no_match_result "zzz");
         EvPrint (no_match_summary "zzz" "out/result.json") ].
Proof. reflexivity. Qed.

(** C4 (as amended).  The loader raises exactly when the source is
    missing, unreadable or not valid JSON, and then the run stops before
    the matcher is called.  It does not check the shape of what it read:
    any parsed value is returned as it is. *)
Theorem load_graph_spec :
  (∀ (w : World) (gf : string),
     (∃ err, outcome (load_graph w gf) = Err err) ↔
     graph_files w gf = Absent ∨ graph_files w gf = Unreadable
     ∨ graph_files w gf = Malformed)
  ∧ (∀ (w : World) (gf : string) (g : Graph),
       graph_files w gf = Parsed g → outcome (load_graph w gf) = Ok g)
  ∧ (∀ (w : World) (query gf dir out : string) (depth : option Z)
       (err : py_error),
       outcome (load_graph w gf) = Err err →
       outcome (main w query gf dir out depth) = Err err
       ∧ trace (main w query gf dir out depth)
         = [EvCall F_load_graph; EvOpen gf]).
Proof.
  split; [| split].
  - intros w gf. unfold load_graph, open_json.
    destruct (graph_files w gf) as [| | |g]; simpl.
    + split; [tauto | eauto].
    + split; [tauto | eauto].
    + split; [tauto | eauto].
    + split; [intros [err Herr]; discriminate |].
      intros [H|[H|H]]; discriminate.
  - intros w gf g Hg. unfold load_graph, open_json. by rewrite Hg.
  - intros w query gf dir out depth err. unfold_main.
    destruct (graph_files w gf) as [| | |g]; simpl;
      intros Herr; by simplify_eq.
Qed.

Lemma load_graph_spec_witness :
  graph_files example_world "graph.json" = Parsed example_graph
  ∧ outcome (load_graph example_world "graph.json") = Ok example_graph
  ∧ outcome (load_graph example_world "missing.json")
    = Err (FileNotFoundError "missing.json")
  ∧ outcome (main example_world "ciso" "missing.json" "chunks"
               "out/result.json" None)
    = Err (FileNotFoundError "missing.json")
  ∧ trace (main example_world "ciso" "missing.json" "chunks"
             "out/result.json" None)
    = [EvCall F_load_graph; EvOpen "missing.json"].
Proof.
  split; [reflexivity |].
  split; [apply (proj1 (proj2 load_graph_spec)); reflexivity |].
  split; [reflexivity |].
  apply (proj2 (proj2 load_graph_spec)); reflexivity.
Defined.

(** C4 (as stated) fails: the graph file of [shapeless_world] holds an
    object with neither [nodes] nor [edges], and the loader returns it.
    The run fails later, in the matcher, with a [KeyError]. *)
Lemma load_graph_shapeless_counterexample :
  outcome (load_graph shapeless_world "graph.json")
  = Ok {| nodes := None; edges := None |}
  ∧ outcome (main shapeless_world "ciso" "graph.json" "chunks"
               "out/result.json" None)
    = Err (KeyError "nodes")
  ∧ trace (main shapeless_world "ciso" "graph.json" "chunks"
             "out/result.json" None)
    = [EvCall F_load_graph; EvOpen "graph.json"; EvCall F_search_entities].
Proof. repeat split. Qed.

(** The scenario of the specification, end to end: the query [ciso] with
    one hop on [example_world]. *)
Example main_query_ciso :
  main example_world "ciso" "graph.json" "chunks" "out/result.json" (Some 1)
  = IO (Ok {| sum_status := "success";
              sum_query := "ciso";
              sum_entities_found := 1;
              sum_related_entities := 2;
              sum_chunks_found := 1;
              sum_output_file := "out/result.json" |})
       [ EvCall F_load_graph; EvOpen "graph.json"; EvCall F_search_entities;
         EvCall F_get_related_entities; EvCall F_find_chunks_with_entities;
         EvGlob "chunks";
         EvOpen "chunks/entities_CHUNK-1.json";
         EvOpen "chunks/entities_CHUNK-2.json";
         EvOpen "chunks/entities_CHUNK-3.json";
         EvCall F_get_subgraph;
         EvWrite "out/result.json" (Success example_success);
         EvPrint {| sum_status := "success";
                    sum_query := "ciso";
                    sum_entities_found := 1;
                    sum_related_entities := 2;
                    sum_chunks_found := 1;
                    sum_output_file := "out/result.json" |} ].
Proof. vm_compute. reflexivity. Qed.

Lemma example_dir_ok :
  Forall (artifact_ok ["A"; "B"]) (chunk_artifacts example_world "chunks").
Proof.
  change (chunk_artifacts example_world "chunks")
    with [ in_chunks "entities_CHUNK-1.json" (Parsed chunk_1);
           in_chunks "entities_CHUNK-2.json" (Parsed chunk_2);
           in_chunks "entities_CHUNK-3.json" (Parsed chunk_empty) ].
  constructor; [| constructor; [| constructor; [| constructor]]].
  - exists chunk_1. split; [done |].
    split; [repeat constructor; by eexists | intros _; by eexists].
  - exists chunk_2. split; [done |].
    split; [repeat constructor; by eexists | intros _; by eexists].
  - exists chunk_empty. split; [done |].
    split; [constructor |]. intros Hhit. exfalso.
    apply Exists_exists in Hhit as (x & _ & Hx). by apply elem_of_nil in Hx.
Qed.

(** C9.  When every enumerated artifact can be processed, the chunk
    locator returns, in enumeration order, one record for each artifact
    whose entity identifiers meet the given identifiers, and no other; each
    record carries the artifact's chunk id, entities and relationships, and
    the path it was read from.  A success result embeds the first 20
    elements of the list the locator returned for the expander's output. *)
Theorem find_chunks_with_entities_spec :
  (∀ (w : World) (ids : list string) (dir : string),
     Forall (artifact_ok ids) (chunk_artifacts w dir) →
     ∃ cs, outcome (find_chunks_with_entities w ids dir) = Ok cs
           ∧ Forall2 record_of cs (filter (hits ids) (chunk_artifacts w dir)))
  ∧ (∀ (w : World) (query gf dir out : string) (depth : option Z)
       (r : SuccessResult),
       EvWrite out (Success r) ∈ trace (main w query gf dir out depth) →
       ∃ g ms ids related cs,
         graph_files w gf = Parsed g
         ∧ search_entities g (split (lower query)) = Ok ms
         ∧ mapM' (fun e => getitem "id" (node_id e)) ms = Ok ids
         ∧ get_related_entities g ids (get depth 2) = Ok related
         ∧ outcome (find_chunks_with_entities w related dir) = Ok cs
         ∧ sr_chunks r = take 20 cs
         ∧ length (sr_chunks r) = Nat.min 20 (length cs)
         ∧ sr_relevant_chunks r = length cs).
Proof.
  split.
  - intros w ids dir Hok. rewrite find_chunks_with_entities_outcome.
    destruct (scan_chunk_files_ok ids _ Hok []) as (cs & Hcs & Hrec).
    exists cs. by split.
  - intros w query gf dir out depth r Hr.
    apply main_success_inv in Hr
      as (g & ms & ids & related & cs & sg & Hg & Hms & Hids & Hrel & Hcs
          & _ & Hchunks & Hn).
    exists g, ms, ids, related, cs. rewrite Hchunks, length_take.
    by repeat split.
Qed.

Lemma find_chunks_with_entities_spec_witness :
  (Forall (artifact_ok ["A"; "B"]) (chunk_artifacts example_world "chunks")
   ∧ ∃ cs, outcome (find_chunks_with_entities example_world ["A"; "B"] "chunks")
           = Ok cs
           ∧ Forall2 record_of cs
               (filter (hits ["A"; "B"])
                  (chunk_artifacts example_world "chunks")))
  ∧ (EvWrite "out/result.json" (Success example_success)
       ∈ trace (main example_world "ciso" "graph.json" "chunks"
                  "out/result.json" (Some 1))
     ∧ ∃ g ms ids related cs,
         graph_files example_world "graph.json" = Parsed g
         ∧ search_entities g (split (lower "ciso")) = Ok ms
         ∧ mapM' (fun e => getitem "id" (node_id e)) ms = Ok ids
         ∧ get_related_entities g ids (get (Some 1) 2) = Ok related
         ∧ outcome (find_chunks_with_entities example_world related "chunks")
           = Ok cs
         ∧ sr_chunks example_success = take 20 cs
         ∧ length (sr_chunks example_success) = Nat.min 20 (length cs)
         ∧ sr_relevant_chunks example_success = length cs).
Proof.
  assert (EvWrite "out/result.json" (Success example_success)
            ∈ trace (main example_world "ciso" "graph.json" "chunks"
                       "out/result.json" (Some 1))) as Hwritten.
  { rewrite main_query_ciso. simpl. do 10 apply list_elem_of_further.
    apply list_elem_of_here. }
  split.
  - split; [apply example_dir_ok |].
    apply (proj1 find_chunks_with_entities_spec), example_dir_ok.
  - split; [exact Hwritten |].
    apply (proj2 find_chunks_with_entities_spec example_world "ciso"
             "graph.json" "chunks" "out/result.json" (Some 1)
             example_success Hwritten).
Defined.

(** On [example_world] the locator keeps the one artifact that mentions A
    or B, and passes over the one without entities. *)
Example find_chunks_with_entities_example :
  outcome (find_chunks_with_entities example_world ["A"; "B"] "chunks")
  = Ok (sr_chunks example_success).
Proof. reflexivity. Qed.

(** Once the locator is called, an artifact that is not valid JSON makes
    the whole run raise, and nothing is written. *)
Lemma main_malformed_artifact_aborts w query gf dir out depth d :
  d ∈ chunk_artifacts w dir → entry_file d = Malformed →
  EvCall F_find_chunks_with_entities ∈ trace (main w query gf dir out depth) →
  (∃ err, outcome (main w query gf dir out depth) = Err err)
  ∧ ∀ p r, EvWrite p r ∉ trace (main w query gf dir out depth).
Proof.
  intros Hin Hbad. unfold_main.
  destruct (graph_files w gf) as [| | |g] eqn:Hg; simpl; [no_such_event.. |].
  destruct (search_entities g (split (lower query))) as [ms|err] eqn:Hms;
    simpl; [| no_such_event].
  destruct ms as [|m ms].
  { simpl. destruct (write_outcome w out); simpl; no_such_event. }
  remember (m :: ms) as matches eqn:Hmatches.
  destruct (mapM' (fun e => getitem "id" (node_id e)) matches)
    as [ids|err] eqn:Hids; simpl; [| no_such_event].
  destruct (get_related_entities g ids (get depth 2)) as [related|err]
    eqn:Hrel; simpl; [| no_such_event].
  pose proof (find_chunks_with_entities_trace w related dir) as Hreads.
  destruct (find_chunks_with_entities_raises w related dir d Hin Hbad)
    as [err Herr].
  destruct (find_chunks_with_entities w related dir) as [[cs|err'] t] eqn:Hcs;
    simpl in *; [discriminate |].
  intros _. split; [by exists err' |].
  intros p r H. event_cases H. by apply (reads_only_in _ _ Hreads) in H.
Qed.

(** C3 (as amended).  An enumerated artifact that is not valid JSON makes
    the chunk locator raise, whatever the other artifacts hold; the run
    that called the locator then raises too and writes no result.  An
    artifact that parses to an object without [entities] is passed over:
    the locator returns what it returns without that artifact. *)
Theorem find_chunks_with_entities_malformed :
  (∀ (w : World) (ids : list string) (dir : string) (d : DirEntry),
     d ∈ chunk_artifacts w dir → entry_file d = Malformed →
     ∃ err, outcome (find_chunks_with_entities w ids dir) = Err err)
  ∧ (∀ (w : World) (query gf dir out : string) (depth : option Z)
       (d : DirEntry),
       d ∈ chunk_artifacts w dir → entry_file d = Malformed →
       EvCall F_find_chunks_with_entities
         ∈ trace (main w query gf dir out depth) →
       (∃ err, outcome (main w query gf dir out depth) = Err err)
       ∧ ∀ p r, EvWrite p r ∉ trace (main w query gf dir out depth))
  ∧ (∀ (w w' : World) (ids : list string) (dir : string)
       (pre post : list DirEntry) (d : DirEntry) (data : ChunkData),
       listdir w dir = pre ++ d :: post →
       listdir w' dir = pre ++ post →
       entry_file d = Parsed data → entities data = None →
       outcome (find_chunks_with_entities w ids dir)
       = outcome (find_chunks_with_entities w' ids dir)).
Proof.
  split; [| split].
  - intros w ids dir d. apply find_chunks_with_entities_raises.
  - intros w query gf dir out depth d.
    apply main_malformed_artifact_aborts.
  - intros w w' ids dir pre post d data Hw Hw' Hd Hents.
    rewrite !find_chunks_with_entities_outcome. unfold chunk_artifacts.
    rewrite Hw, Hw', !filter_app, !foldM_app.
    destruct (foldM _ [] (filter _ pre)) as [chunks|err]; simpl; [| done].
    rewrite filter_cons. destruct (decide _); [| done].
    simpl. rewrite scan_chunk_file_outcome, Hd.
    by rewrite (scan_chunk_no_entities _ _ _ _ Hents).
Qed.

Lemma find_chunks_with_entities_malformed_witness :
  in_chunks "entities_CHUNK-2.json" Malformed
    ∈ chunk_artifacts broken_world "chunks"
  ∧ entry_file (in_chunks "entities_CHUNK-2.json" Malformed) = Malformed
  ∧ (∃ err, outcome (find_chunks_with_entities broken_world ["A"; "B"] "chunks")
            = Err err)
  ∧ listdir example_world "chunks"
    = [ in_chunks "entities_CHUNK-1.json" (Parsed chunk_1);
        in_chunks "notes.txt" Malformed;
        in_chunks "entities_CHUNK-2.json" (Parsed chunk_2) ]
      ++ in_chunks "entities_CHUNK-3.json" (Parsed chunk_empty) :: []
  ∧ outcome (find_chunks_with_entities example_world ["A"; "B"] "chunks")
    = outcome (find_chunks_with_entities
                 (world_of (Parsed example_graph)
                    ([ in_chunks "entities_CHUNK-1.json" (Parsed chunk_1);
                       in_chunks "notes.txt" Malformed;
                       in_chunks "entities_CHUNK-2.json" (Parsed chunk_2) ]
                     ++ []))
                 ["A"; "B"] "chunks").
Proof.
  assert (in_chunks "entities_CHUNK-2.json" Malformed
            ∈ chunk_artifacts broken_world "chunks") as Hin.
  { change (chunk_artifacts broken_world "chunks")
      with [ in_chunks "entities_CHUNK-1.json" (Parsed chunk_1);
             in_chunks "entities_CHUNK-2.json" Malformed ].
    apply list_elem_of_further, list_elem_of_here. }
  split; [exact Hin |]. split; [reflexivity |].
  split.
  - apply (proj1 find_chunks_with_entities_malformed broken_world ["A"; "B"]
             "chunks" _ Hin). reflexivity.
  - split; [reflexivity |].
    apply (proj2 (proj2 find_chunks_with_entities_malformed)
             example_world _ ["A"; "B"] "chunks"
             [ in_chunks "entities_CHUNK-1.json" (Parsed chunk_1);
               in_chunks "notes.txt" Malformed;
               in_chunks "entities_CHUNK-2.json" (Parsed chunk_2) ]
             []
             (in_chunks "entities_CHUNK-3.json" (Parsed chunk_empty))
             chunk_empty); reflexivity.
Defined.

(** C3 (as stated) fails: in [broken_world] the second artifact is not
    valid JSON.  The locator does not return the first artifact's record:
    it raises, and the run for the query [ciso] raises with it and writes
    no result. *)
Lemma find_chunks_with_entities_lenient_counterexample :
  in_chunks "entities_CHUNK-2.json" Malformed ∈ listdir broken_world "chunks"
  ∧ outcome (find_chunks_with_entities broken_world ["A"; "B"] "chunks")
    = Err (JSONDecodeError "chunks/entities_CHUNK-2.json")
  ∧ main broken_world "ciso" "graph.json" "chunks" "out/result.json" (Some 1)
    = IO (Err (JSONDecodeError "chunks/entities_CHUNK-2.json"))
         [ EvCall F_load_graph; EvOpen "graph.json"; EvCall F_search_entities;
           EvCall F_get_related_entities; EvCall F_find_chunks_with_entities;
           EvGlob "chunks";
           EvOpen "chunks/entities_CHUNK-1.json";
           EvOpen "chunks/entities_CHUNK-2.json" ].
Proof.
  split; [apply list_elem_of_further, list_elem_of_here |].
  split; [reflexivity |]. vm_compute. reflexivity.
Qed.

(** * Further properties of the query engine *)

(** ** Tokens of the query *)


Lemma split_go_nil (s cur : string) :
  split_go s cur = [] ↔ cur = "" ∧ all_chars is_space s = true.
Proof.
  revert cur. induction s as [|c s IH]; intros cur; simpl.
  - destruct cur; [tauto |]. split; [done | by intros [? _]].
  - destruct (is_space c) eqn:Hsp; simpl.
    + destruct cur as [|a cur].
      * rewrite IH. tauto.
      * split; [done | by intros [? _]].
    + rewrite IH. split; [| by intros [_ ?]].
      intros [Hcur _]. by destruct cur.
Qed.

Lemma lower_ascii_idemp c : lower_ascii (lower_ascii c) = lower_ascii c.
Proof.
  destruct c as [[] [] [] [] [] [] [] []]; reflexivity.
Qed.

Lemma lower_idemp s : lower (lower s) = lower s.
Proof.
  induction s as [|c s IH]; simpl; [done |].
  by rewrite lower_ascii_idemp, IH.
Qed.




Lemma lower_is_space c : is_space (lower_ascii c) = is_space c.
Proof.
  destruct c as [[] [] [] [] [] [] [] []]; reflexivity.
Qed.

Lemma lower_all_space s :
  all_chars is_space (lower s) = all_chars is_space s.
Proof.
  induction s as [|c s IH]; simpl; [done |].
  by rewrite lower_is_space, IH.
Qed.


(** X2.  A query of whitespace only (or empty) gives the [no_matches]
    result on every graph file that parses to an object with a node list,
    whatever the nodes are; the chunk directory is not touched. *)
Theorem main_blank_query (w : World) (query gf dir out : string)
    (depth : option Z) (g : Graph) (ns : list Node) :
  all_chars is_space query = true →
  graph_files w gf = Parsed g → nodes g = Some ns →
  trace (main w query gf dir out depth)
  = [EvCall F_load_graph; EvOpen gf; EvCall F_search_entities]
    ++ match write_outcome w out with
       | None => [ EvWrite out (no_match_result query);
                   EvPrint (no_match_summary query out) ]
       | Some _ => []
       end.
Proof.
  intros Hblank Hg Hns.
  assert (split (lower query) = []) as Hterms.
  { unfold split. apply split_go_nil. by rewrite lower_all_space. }
  assert (search_entities g [] = Ok []) as Hms.
  { rewrite (search_entities_filter _ ns) by done. f_equal.
    clear. induction ns as [|n ns IH]; [done |].
    rewrite filter_cons. simpl. by destruct (decide (false = true)). }
  unfold_main. rewrite Hg. simpl. rewrite Hterms, Hms. simpl.
  by destruct (write_outcome w out).
Qed.

Lemma main_blank_query_witness :
  all_chars is_space "  " = true
  ∧ graph_files example_world "graph.json" = Parsed example_graph
  ∧ nodes example_graph = Some (get (nodes example_graph) [])
  ∧ trace (main example_world "  " "graph.json" "chunks" "out/r.json" None)
    = [EvCall F_load_graph; EvOpen "graph.json"; EvCall F_search_entities]
      ++ match write_outcome example_world "out/r.json" with
         | None => [ EvWrite "out/r.json" (no_match_result "  ");
                     EvPrint (no_match_summary "  " "out/r.json") ]
         | Some _ => []
         end.
Proof.
  split; [reflexivity |]. split; [reflexivity |]. split; [reflexivity |].
  apply (main_blank_query example_world "  " "graph.json" "chunks"
           "out/r.json" None example_graph (get (nodes example_graph) []));
    reflexivity.
Defined.

(** ** More on [search_entities] *)

Lemma matches_node_lowered terms n :
  matches_node terms n = true ↔
  ∃ t, t ∈ map lower terms ∧ contains t (node_search_text n) = true.
Proof.
  unfold matches_node.
  rewrite <- (existsb_map lower (fun t => contains t (node_search_text n))).
  rewrite existsb_exists.
  split; intros (t & Ht & Hc); exists t; (split; [| done]);
    by apply list_elem_of_In.
Qed.

Lemma filter_ext_bool {A} (p q : A → bool) (l : list A) :
  (∀ x, p x = q x) →
  filter (fun x => p x = true) l = filter (fun x => q x = true) l.
Proof.
  intros Hpq. induction l as [|x l IH]; [done |].
  rewrite !filter_cons, IH, Hpq. by destruct (q x).
Qed.

(** X3.  The matcher looks at the query terms only through the set of
    their lower-cased forms: two term lists with the same lower-cased
    members (whatever their order, repetitions or letter case) give the
    same result, on any graph. *)
Theorem search_entities_terms_as_set (G : Graph) (ts1 ts2 : list string) :
  (∀ t, t ∈ map lower ts1 ↔ t ∈ map lower ts2) →
  search_entities G ts1 = search_entities G ts2.
Proof.
  intros Hsame. destruct (nodes G) as [ns|] eqn:Hns.
  - rewrite !(search_entities_filter _ ns) by done. f_equal.
    apply filter_ext_bool. intros n.
    apply eq_true_iff_eq. rewrite !matches_node_lowered.
    split; intros (t & Ht & Hc); exists t; (split; [by apply Hsame | done]).
  - unfold search_entities. by rewrite Hns.
Qed.

Lemma search_entities_terms_as_set_witness :
  (∀ t, t ∈ map lower ["CISO"; "mfa"] ↔ t ∈ map lower ["MFA"; "ciso"; "Ciso"])
  ∧ search_entities example_graph ["CISO"; "mfa"]
    = search_entities example_graph ["MFA"; "ciso"; "Ciso"].
Proof.
  assert (∀ t, t ∈ map lower ["CISO"; "mfa"]
               ↔ t ∈ map lower ["MFA"; "ciso"; "Ciso"]) as H.
  { intros t. simpl. rewrite !elem_of_cons, !elem_of_nil. tauto. }
  split; [exact H |].
  apply (search_entities_terms_as_set example_graph _ _ H).
Defined.

(** X4.  More terms never lose a match: when every term of [ts1] is a term
    of [ts2], the result for [ts1] is a sublist of the result for [ts2]. *)
Theorem search_entities_more_terms (G : Graph) (ns : list Node)
    (ts1 ts2 : list string) :
  nodes G = Some ns → (∀ t, t ∈ ts1 → t ∈ ts2) →
  ∃ r1 r2, search_entities G ts1 = Ok r1
           ∧ search_entities G ts2 = Ok r2
           ∧ sublist r1 r2.
Proof.
  intros Hns Hsub. do 2 eexists.
  split; [by apply search_entities_filter |].
  split; [by apply search_entities_filter |].
  clear Hns. induction ns as [|n ns IH]; [done |].
  rewrite !filter_cons. repeat case_decide.
  - by apply sublist_skip.
  - exfalso. apply (matches_node_spec ts1) in H as (t & Ht & Hc).
    apply H0, matches_node_spec. eauto.
  - by apply sublist_cons.
  - done.
Qed.

Lemma search_entities_more_terms_witness :
  nodes example_graph = Some (get (nodes example_graph) [])
  ∧ (∀ t, t ∈ ["mfa"] → t ∈ ["ciso"; "mfa"])
  ∧ ∃ r1 r2, search_entities example_graph ["mfa"] = Ok r1
             ∧ search_entities example_graph ["ciso"; "mfa"] = Ok r2
             ∧ sublist r1 r2.
Proof.
  assert (∀ t, t ∈ ["mfa"] → t ∈ ["ciso"; "mfa"]) as H.
  { intros t. rewrite !elem_of_cons, !elem_of_nil. tauto. }
  split; [reflexivity |]. split; [exact H |].
  apply (search_entities_more_terms example_graph _ _ _ eq_refl H).
Defined.

Lemma starts_with_empty s : starts_with "" s = true.
Proof. by destruct s. Qed.

(** X5.  An empty string among the terms matches every node: the matcher
    then returns the whole node list. *)
Theorem search_entities_empty_term (G : Graph) (ns : list Node)
    (terms : list string) :
  nodes G = Some ns → "" ∈ terms → search_entities G terms = Ok ns.
Proof.
  intros Hns Hin. rewrite (search_entities_filter _ ns) by done. f_equal.
  assert (∀ n, matches_node terms n = true) as Hall.
  { intros n. apply matches_node_spec. exists "". split; [done |].
    by exists "", (node_search_text n). }
  clear Hns. induction ns as [|n ns IH]; [done |].
  rewrite filter_cons, IH.
  by destruct (decide (matches_node terms n = true)) as [|[]].
Qed.

Lemma search_entities_empty_term_witness :
  nodes example_graph = Some (get (nodes example_graph) [])
  ∧ "" ∈ ["zzz"; ""]
  ∧ search_entities example_graph ["zzz"; ""]
    = Ok (get (nodes example_graph) []).
Proof.
  assert ("" ∈ ["zzz"; ""]) as H
    by apply list_elem_of_further, list_elem_of_here.
  split; [reflexivity |]. split; [exact H |].
  apply (search_entities_empty_term example_graph _ _ eq_refl H).
Defined.

(** ** More on [get_related_entities] *)

Lemma scan_edge_Ok_inv R acc e new :
  scan_edge R acc e = Ok new → edge_ok e.
Proof.
  unfold scan_edge, edge_ok.
  destruct (edge_from e) as [f|]; [| discriminate].
  destruct (edge_to e) as [t|]; [eauto |].
  simpl. by destruct (decide (f ∈ R)).
Qed.

Lemma edge_scan_Ok_inv R (es : list Edge) :
  ∀ acc new, foldM (scan_edge R) acc es = Ok new → Forall edge_ok es.
Proof.
  induction es as [|e es IH]; intros acc new; simpl; [by constructor |].
  destruct (scan_edge R acc e) as [acc'|err] eqn:He; [| discriminate].
  simpl. intros Hrest. constructor.
  - by eapply scan_edge_Ok_inv.
  - by eapply IH.
Qed.

Lemma get_related_entities_Ok_inv (G : Graph) (ids : list string) (h : Z)
    (r : list string) :
  get_related_entities G ids h = Ok r →
  h ≤ 0 ∨ ∃ es, edges G = Some es ∧ Forall edge_ok es.
Proof.
  intros Hr. destruct (Z.to_nat h) as [|n] eqn:Hn; [left; lia | right].
  unfold get_related_entities in Hr. rewrite Hn in Hr. simpl in Hr.
  destruct (edges G) as [es|]; [| discriminate]. simpl in Hr.
  destruct (foldM (scan_edge (list_to_set ids)) ∅ es) as [new|err] eqn:Hs;
    [| discriminate].
  exists es. split; [done |]. by eapply edge_scan_Ok_inv.
Qed.

(** X6.  The expander returns exactly when the hop budget is zero or
    negative, or the graph has an edge list in which every edge carries
    both endpoints: with at least one hop every edge is read in full,
    whether or not it touches the working set. *)
Theorem get_related_entities_returns_iff (G : Graph) (ids : list string)
    (h : Z) :
  (∃ r, get_related_entities G ids h = Ok r) ↔
  h ≤ 0 ∨ ∃ es, edges G = Some es ∧ Forall edge_ok es.
Proof.
  split.
  - intros [r Hr]. by eapply get_related_entities_Ok_inv.
  - intros [Hh|(es & Hes & Hok)].
    + unfold get_related_entities.
      replace (Z.to_nat h) with O by lia. simpl. eauto.
    + destruct (get_related_entities_ball G es ids h Hes Hok) as (r & Hr & _).
      eauto.
Qed.

Lemma walk_app es a b x y z :
  walk es a x y → walk es b y z → walk es (a + b) x z.
Proof.
  induction 1 as [x|k x y' y Hadj Hw IH]; intros Hb; [done |].
  simpl. apply walk_step with y'; [done | by apply IH].
Qed.

Lemma walk_split es a b x z :
  walk es (a + b) x z → ∃ y, walk es a x y ∧ walk es b y z.
Proof.
  revert x. induction a as [|a IH]; intros x Hw; simpl in Hw.
  - exists x. split; [constructor | done].
  - inversion Hw as [|k x' y z' Hadj Hw']; subst.
    destruct (IH _ Hw') as (y' & Ha & Hb).
    exists y'. split; [by apply walk_step with y | done].
Qed.

Lemma within_distance_compose es ids (h1 h2 : nat) r1 x :
  (∀ y, y ∈ r1 ↔ within_distance es ids h1 y) →
  within_distance es r1 h2 x ↔ within_distance es ids (h1 + h2) x.
Proof.
  intros Hr1. split.
  - intros (y & j & Hy & Hj & Hw2).
    apply Hr1 in Hy as (s & k & Hs & Hk & Hw1).
    exists s, (k + j)%nat. split; [done |]. split; [lia |].
    by apply walk_app with y.
  - intros (s & k & Hs & Hk & Hw).
    destruct (decide (k ≤ h1)%nat) as [Hle|Hgt].
    + exists x, O. split; [| split; [lia | constructor]].
      apply Hr1. exists s, k. by repeat split.
    + replace k with (h1 + (k - h1))%nat in Hw by lia.
      apply walk_split in Hw as (y & Hw1 & Hw2).
      exists y, (k - h1)%nat. split; [| split; [lia | done]].
      apply Hr1. exists s, h1. by repeat split.
Qed.

(** X7.  Expanding in two stages is expanding once with the sum of the
    budgets: the identifiers reached by [h2] hops from the result of [h1]
    hops are those reached by [h1 + h2] hops from the seeds. *)
Theorem get_related_entities_compose (G : Graph) (es : list Edge)
    (ids : list string) (h1 h2 : Z) :
  edges G = Some es → Forall edge_ok es → 0 ≤ h1 → 0 ≤ h2 →
  ∃ r1 r2 r,
    get_related_entities G ids h1 = Ok r1
    ∧ get_related_entities G r1 h2 = Ok r2
    ∧ get_related_entities G ids (h1 + h2) = Ok r
    ∧ ∀ x, x ∈ r2 ↔ x ∈ r.
Proof.
  intros Hes Hok Hh1 Hh2.
  destruct (get_related_entities_ball G es ids h1 Hes Hok)
    as (r1 & Hr1 & _ & Hin1).
  destruct (get_related_entities_ball G es r1 h2 Hes Hok)
    as (r2 & Hr2 & _ & Hin2).
  destruct (get_related_entities_ball G es ids (h1 + h2) Hes Hok)
    as (r & Hr & _ & Hin).
  exists r1, r2, r. repeat split; try done.
  - intros Hx. apply Hin. apply Hin2 in Hx.
    replace (Z.to_nat (h1 + h2)) with (Z.to_nat h1 + Z.to_nat h2)%nat by lia.
    by apply (within_distance_compose es ids _ _ r1).
  - intros Hx. apply Hin2. apply Hin in Hx.
    replace (Z.to_nat (h1 + h2)) with (Z.to_nat h1 + Z.to_nat h2)%nat
      in Hx by lia.
    by apply (within_distance_compose es ids _ _ r1) in Hx.
Qed.

Lemma get_related_entities_compose_witness :
  edges chain_graph = Some chain_edges
  ∧ Forall edge_ok chain_edges
  ∧ 0 ≤ 1 ∧ 0 ≤ 1
  ∧ ∃ r1 r2 r,
      get_related_entities chain_graph ["A"] 1 = Ok r1
      ∧ get_related_entities chain_graph r1 1 = Ok r2
      ∧ get_related_entities chain_graph ["A"] (1 + 1) = Ok r
      ∧ ∀ x, x ∈ r2 ↔ x ∈ r.
Proof.
  split; [reflexivity |]. split; [apply chain_graph_edges_ok |].
  split; [lia |]. split; [lia |].
  apply (get_related_entities_compose chain_graph chain_edges ["A"] 1 1);
    [reflexivity | apply chain_graph_edges_ok | lia | lia].
Defined.

Lemma within_distance_stable es ids (h : nat) :
  (∀ x, within_distance es ids (S h) x → within_distance es ids h x) →
  ∀ k x, within_distance es ids (h + k) x ↔ within_distance es ids h x.
Proof.
  intros Hstable. induction k as [|k IH]; intros x.
  - by rewrite Nat.add_0_r.
  - replace (h + S k)%nat with (S (h + k)) by lia.
    rewrite within_distance_succ, IH. split.
    + intros [Hx|(y & Hy & Hadj)]; [done |].
      apply Hstable, within_distance_succ. right. exists y. split; [| done].
      by apply IH.
    + intros Hx. by left.
Qed.

(** X8.  Once a further hop adds nothing, no number of further hops does:
    if the result for [h + 1] is contained in the result for [h], the
    result for [h + k] has the members of the result for [h], for every
    [k >= 0].  The remaining rounds of a larger budget are then idle. *)
Theorem get_related_entities_stable (G : Graph) (es : list Edge)
    (ids : list string) (h k : Z) (r r' : list string) :
  edges G = Some es → Forall edge_ok es → 0 ≤ h → 0 ≤ k →
  get_related_entities G ids h = Ok r →
  get_related_entities G ids (h + 1) = Ok r' →
  (∀ x, x ∈ r' → x ∈ r) →
  ∃ r'', get_related_entities G ids (h + k) = Ok r''
         ∧ ∀ x, x ∈ r'' ↔ x ∈ r.
Proof.
  intros Hes Hok Hh Hk Hr Hr' Hsub.
  destruct (get_related_entities_ball G es ids h Hes Hok)
    as (r0 & Hr0 & _ & Hin).
  destruct (get_related_entities_ball G es ids (h + 1) Hes Hok)
    as (r1 & Hr1 & _ & Hin1).
  destruct (get_related_entities_ball G es ids (h + k) Hes Hok)
    as (r2 & Hr2 & _ & Hin2).
  rewrite Hr in Hr0. injection Hr0 as <-.
  rewrite Hr' in Hr1. injection Hr1 as <-.
  exists r2. split; [done |]. intros x.
  rewrite Hin2, Hin.
  replace (Z.to_nat (h + k)) with (Z.to_nat h + Z.to_nat k)%nat by lia.
  apply within_distance_stable. intros y Hy.
  apply Hin, Hsub, Hin1. by replace (Z.to_nat (h + 1)) with (S (Z.to_nat h)) by lia.
Qed.

Lemma get_related_entities_stable_witness :
  edges chain_graph = Some chain_edges
  ∧ Forall edge_ok chain_edges
  ∧ 0 ≤ 2 ∧ 0 ≤ 7
  ∧ ∃ r r' r'',
      get_related_entities chain_graph ["A"] 2 = Ok r
      ∧ get_related_entities chain_graph ["A"] (2 + 1) = Ok r'
      ∧ (∀ x, x ∈ r' → x ∈ r)
      ∧ get_related_entities chain_graph ["A"] (2 + 7) = Ok r''
      ∧ ∀ x, x ∈ r'' ↔ x ∈ r.
Proof.
  split; [reflexivity |]. split; [apply chain_graph_edges_ok |].
  split; [lia |]. split; [lia |].
  assert (get_related_entities chain_graph ["A"] 2 = Ok ["C"; "A"; "B"])
    as Hr by (vm_compute; reflexivity).
  assert (get_related_entities chain_graph ["A"] (2 + 1) = Ok ["C"; "A"; "B"])
    as Hr' by (vm_compute; reflexivity).
  assert (0 ≤ 2) as H2 by lia. assert (0 ≤ 7) as H7 by lia.
  assert (∀ x : string, x ∈ ["C"; "A"; "B"] → x ∈ ["C"; "A"; "B"]) as Hsub
    by auto.
  destruct (get_related_entities_stable chain_graph chain_edges ["A"] 2 7
              ["C"; "A"; "B"] ["C"; "A"; "B"] eq_refl chain_graph_edges_ok
              H2 H7 Hr Hr' Hsub) as (r'' & Hr'' & Hin).
  exists ["C"; "A"; "B"], ["C"; "A"; "B"], r''.
  split; [exact Hr |]. split; [exact Hr' |]. split; [exact Hsub |].
  split; [exact Hr'' | exact Hin].
Defined.

(** X9.  The expander treats each seed on its own: the result for the
    seeds [ids1 ++ ids2] has the members of the result for [ids1] and of
    the result for [ids2], and no other. *)
Theorem get_related_entities_union (G : Graph) (es : list Edge)
    (ids1 ids2 : list string) (h : Z) :
  edges G = Some es → Forall edge_ok es →
  ∃ r1 r2 r,
    get_related_entities G ids1 h = Ok r1
    ∧ get_related_entities G ids2 h = Ok r2
    ∧ get_related_entities G (ids1 ++ ids2) h = Ok r
    ∧ ∀ x, x ∈ r ↔ x ∈ r1 ∨ x ∈ r2.
Proof.
  intros Hes Hok.
  destruct (get_related_entities_ball G es ids1 h Hes Hok)
    as (r1 & Hr1 & _ & Hin1).
  destruct (get_related_entities_ball G es ids2 h Hes Hok)
    as (r2 & Hr2 & _ & Hin2).
  destruct (get_related_entities_ball G es (ids1 ++ ids2) h Hes Hok)
    as (r & Hr & _ & Hin).
  exists r1, r2, r. repeat split; try done.
  - intros (s & k & Hs & Hrest)%Hin.
    apply elem_of_app in Hs as [Hs|Hs].
    + left. apply Hin1. by exists s, k.
    + right. apply Hin2. by exists s, k.
  - intros [(s & k & Hs & Hrest)%Hin1|(s & k & Hs & Hrest)%Hin2];
      apply Hin; exists s, k; (split; [| done]); apply elem_of_app; auto.
Qed.

Lemma get_related_entities_union_witness :
  edges chain_graph = Some chain_edges
  ∧ Forall edge_ok chain_edges
  ∧ ∃ r1 r2 r,
      get_related_entities chain_graph ["A"] 1 = Ok r1
      ∧ get_related_entities chain_graph ["C"] 1 = Ok r2
      ∧ get_related_entities chain_graph (["A"] ++ ["C"]) 1 = Ok r
      ∧ ∀ x, x ∈ r ↔ x ∈ r1 ∨ x ∈ r2.
Proof.
  split; [reflexivity |]. split; [apply chain_graph_edges_ok |].
  apply (get_related_entities_union chain_graph chain_edges ["A"] ["C"] 1);
    [reflexivity | apply chain_graph_edges_ok].
Defined.

Lemma walk_ends_at_endpoint es k x z :
  walk es (S k) x z → endpoint es z.
Proof.
  intros (y & _ & e & He & Hadj)%walk_last. exists e. split; [done |].
  destruct Hadj as [[_ ?]|[? _]]; auto.
Qed.

(** X10.  The expander invents no identifier and repeats none: every
    identifier it returns is a seed or an endpoint of an edge, and the
    returned list has no duplicates, even when the seed list has. *)
Theorem get_related_entities_members (G : Graph) (ids : list string) (h : Z)
    (r : list string) :
  get_related_entities G ids h = Ok r →
  NoDup r
  ∧ ∀ x, x ∈ r → x ∈ ids ∨ ∃ es, edges G = Some es ∧ endpoint es x.
Proof.
  intros Hr.
  destruct (get_related_entities_Ok_inv G ids h r Hr)
    as [Hh|(es & Hes & Hok)].
  - unfold get_related_entities in Hr.
    replace (Z.to_nat h) with O in Hr by lia. simpl in Hr.
    injection Hr as <-. split; [apply NoDup_elements |].
    intros x Hx. left. by apply elem_of_elements, elem_of_list_to_set in Hx.
  - destruct (get_related_entities_ball G es ids h Hes Hok)
      as (r0 & Hr0 & Hnd & Hin).
    rewrite Hr in Hr0. injection Hr0 as <-. split; [done |].
    intros x (s & k & Hs & _ & Hw)%Hin. destruct k as [|k].
    + inversion Hw; subst. by left.
    + right. exists es. split; [done |]. by eapply walk_ends_at_endpoint.
Qed.

Lemma get_related_entities_members_witness :
  get_related_entities chain_graph ["A"; "A"; "Q"] 1 = Ok ["Q"; "A"; "B"]
  ∧ NoDup ["Q"; "A"; "B"]
  ∧ ∀ x, x ∈ ["Q"; "A"; "B"] →
         x ∈ ["A"; "A"; "Q"]
         ∨ ∃ es, edges chain_graph = Some es ∧ endpoint es x.
Proof.
  assert (get_related_entities chain_graph ["A"; "A"; "Q"] 1
          = Ok ["Q"; "A"; "B"]) as H by (vm_compute; reflexivity).
  split; [exact H |].
  apply (get_related_entities_members chain_graph _ 1 _ H).
Defined.

(** ** More on [get_subgraph] *)

Lemma filterM_returns {A} (p : A → py_result bool) (l : list A) :
  (∃ l', filterM p l = Ok l') ↔ Forall (fun x => ∃ b, p x = Ok b) l.
Proof.
  induction l as [|x l IH]; simpl.
  - split; [by constructor | eauto].
  - rewrite Forall_cons, <- IH. destruct (p x) as [b|err]; simpl.
    + destruct (filterM p l) as [rest|err]; simpl.
      * split; [eauto | eauto].
      * split; [by intros [? ?] | by intros [_ [? ?]]].
    + split; [by intros [? ?] | by intros [[? ?] _]].
Qed.

Lemma filterM_idem {A} (p : A → py_result bool) (l l' : list A) :
  filterM p l = Ok l' → filterM p l' = Ok l'.
Proof.
  revert l'. induction l as [|x l IH]; intros l'; simpl.
  - by intros [= <-].
  - destruct (p x) as [b|err] eqn:Hx; [| discriminate]. simpl.
    destruct (filterM p l) as [rest|err]; [| discriminate]. simpl.
    intros [= <-]. destruct b; [| by apply IH].
    simpl. by rewrite Hx, (IH rest).
Qed.

Lemma filterM_keeps {A} (p : A → py_result bool) (l l' : list A) (x : A) :
  filterM p l = Ok l' → x ∈ l → p x = Ok true → x ∈ l'.
Proof.
  revert l'. induction l as [|y l IH]; intros l'; simpl.
  - by intros _ ?%elem_of_nil.
  - destruct (p y) as [b|err] eqn:Hy; [| discriminate]. simpl.
    destruct (filterM p l) as [rest|err]; [| discriminate]. simpl.
    intros [= <-] [->|Hin]%elem_of_cons Hx.
    + rewrite Hx in Hy. injection Hy as <-. apply list_elem_of_here.
    + destruct b; [apply list_elem_of_further |]; by apply IH.
Qed.

Lemma edge_selected_readable E e :
  (∃ b, edge_selected E e = Ok b) ↔ edge_readable E e.
Proof.
  unfold edge_selected, edge_readable.
  destruct (edge_from e) as [f|]; simpl.
  - destruct (bool_decide_reflect (f ∈ E)) as [Hin|Hout].
    + destruct (edge_to e) as [t|]; simpl.
      * split; [intros _; exists f; eauto | eauto].
      * split; [by intros [? ?] |].
        intros (f' & [= <-] & Hto). by destruct (Hto Hin).
    + split; [intros _; exists f; split; [done | tauto] | eauto].
  - split; [by intros [? ?] | by intros (? & ? & _)].
Qed.

Lemma node_selected_returns E n :
  (∃ b, node_selected E n = Ok b) ↔ node_ok n.
Proof.
  unfold node_selected, node_ok. destruct (node_id n) as [i|]; simpl.
  - split; eauto.
  - split; [by intros [? ?] | by intros [? ?]].
Qed.

(** X11.  The subgraph builder returns exactly when the graph has a node
    list whose nodes all carry an [id] and an edge list whose edges all
    carry a [from], and a [to] as well when the [from] is selected: an edge
    without [to] is tolerated as long as its [from] is outside the set. *)
Theorem get_subgraph_returns_iff (G : Graph) (E : list string) :
  (∃ sg, get_subgraph G E = Ok sg) ↔
  ∃ ns es, nodes G = Some ns ∧ edges G = Some es
           ∧ Forall node_ok ns ∧ Forall (edge_readable E) es.
Proof.
  unfold get_subgraph. split.
  - intros [sg Hsg].
    destruct (nodes G) as [ns|]; [| discriminate]. simpl in Hsg.
    destruct (filterM (node_selected E) ns) as [ns'|] eqn:Hns;
      [| discriminate]. simpl in Hsg.
    destruct (edges G) as [es|]; [| discriminate]. simpl in Hsg.
    destruct (filterM (edge_selected E) es) as [es'|] eqn:Hes;
      [| discriminate].
    exists ns, es. split; [done |]. split; [done |]. split.
    + eapply Forall_impl; [apply filterM_returns; eauto |].
      intros n. apply node_selected_returns.
    + eapply Forall_impl; [apply filterM_returns; eauto |].
      intros e. apply edge_selected_readable.
  - intros (ns & es & -> & -> & Hn & He). simpl.
    destruct (proj2 (filterM_returns (node_selected E) ns)) as [ns' ->].
    { eapply Forall_impl; [exact Hn |]. intros n. apply node_selected_returns. }
    destruct (proj2 (filterM_returns (edge_selected E) es)) as [es' ->].
    { eapply Forall_impl; [exact He |]. intros e. apply edge_selected_readable. }
    simpl. eauto.
Qed.

(** An edge without [to] whose [from] is not selected does not stop the
    builder. *)
Example get_subgraph_unselected_edge_without_to :
  get_subgraph
    {| nodes := Some [ mkNode (Some "A") None None ];
       edges := Some [ mkEdge (Some "Z") None None ] |} ["A"]
  = Ok {| sg_nodes := [ mkNode (Some "A") None None ]; sg_edges := [] |}.
Proof. reflexivity. Qed.

(** X12.  Building is idempotent: the builder applied to its own result,
    read back as a graph, with the same set returns that result again. *)
Theorem get_subgraph_idempotent (G : Graph) (E : list string) (sg : Subgraph) :
  get_subgraph G E = Ok sg → get_subgraph (as_graph sg) E = Ok sg.
Proof.
  unfold get_subgraph. intros Hsg.
  destruct (nodes G) as [ns|]; [| discriminate]. simpl in Hsg.
  destruct (filterM (node_selected E) ns) as [ns'|] eqn:Hns;
    [| discriminate]. simpl in Hsg.
  destruct (edges G) as [es|]; [| discriminate]. simpl in Hsg.
  destruct (filterM (edge_selected E) es) as [es'|] eqn:Hes;
    [| discriminate].
  injection Hsg as <-. simpl.
  by rewrite (filterM_idem _ _ _ Hns), (filterM_idem _ _ _ Hes).
Qed.

Lemma get_subgraph_idempotent_witness :
  get_subgraph example_graph ["A"; "B"; "Q"]
  = Ok {| sg_nodes := [ mkNode (Some "A") (Some "CISO role") (Some "ROLE");
                        mkNode (Some "B") (Some "MFA concept") (Some "CONCEPT") ];
          sg_edges := [ mkEdge (Some "A") (Some "B") (Some "RELATES_TO") ] |}
  ∧ get_subgraph
      (as_graph
         {| sg_nodes := [ mkNode (Some "A") (Some "CISO role") (Some "ROLE");
                          mkNode (Some "B") (Some "MFA concept") (Some "CONCEPT") ];
            sg_edges := [ mkEdge (Some "A") (Some "B") (Some "RELATES_TO") ] |})
      ["A"; "B"; "Q"]
    = Ok {| sg_nodes := [ mkNode (Some "A") (Some "CISO role") (Some "ROLE");
                          mkNode (Some "B") (Some "MFA concept") (Some "CONCEPT") ];
            sg_edges := [ mkEdge (Some "A") (Some "B") (Some "RELATES_TO") ] |}.
Proof.
  assert (get_subgraph example_graph ["A"; "B"; "Q"]
          = Ok {| sg_nodes := [ mkNode (Some "A") (Some "CISO role") (Some "ROLE");
                                mkNode (Some "B") (Some "MFA concept") (Some "CONCEPT") ];
                  sg_edges := [ mkEdge (Some "A") (Some "B") (Some "RELATES_TO") ] |})
    as H by reflexivity.
  split; [exact H |].
  apply (get_subgraph_idempotent example_graph _ _ H).
Defined.

(** ** More on [find_chunks_with_entities] *)

Lemma ends_with_unfold suffix s :
  ends_with suffix s =
  if String.eqb suffix s then true
  else match s with
       | EmptyString => false
       | String _ s' => ends_with suffix s'
       end.
Proof. by destruct s. Qed.

Lemma ends_with_spec suffix s :
  ends_with suffix s = true ↔ ∃ pre, s = pre +:+ suffix.
Proof.
  split.
  - induction s as [|c s IH]; rewrite ends_with_unfold.
    + destruct (String.eqb_spec suffix "") as [->|_]; [| done].
      intros _. by exists "".
    + destruct (String.eqb_spec suffix (String c s)) as [->|_].
      * intros _. by exists "".
      * intros [pre ->]%IH. by exists (String c pre).
  - intros [pre ->]. induction pre as [|c pre IH]; rewrite ends_with_unfold.
    + simpl. by rewrite String.eqb_refl.
    + simpl. rewrite IH. by destruct (String.eqb _ _).
Qed.

(** X13.  The locator's pattern selects exactly the file names made of
    [entities_CHUNK-], any characters (possibly none), and [.json]; the
    match is case-sensitive and anchored at both ends. *)
Theorem glob_match_spec (name : string) :
  glob_match name = true ↔
  ∃ mid, name = "entities_CHUNK-" +:+ mid +:+ ".json".
Proof.
  unfold glob_match. rewrite andb_true_iff, starts_with_spec. split.
  - intros [[post ->] Hend]. change (skip 15 _) with post in Hend.
    apply ends_with_spec in Hend as [mid ->]. by exists mid.
  - intros [mid ->]. split; [eauto |].
    change (skip 15 _) with (mid +:+ ".json"). apply ends_with_spec. eauto.
Qed.

Example glob_match_examples :
  glob_match "entities_CHUNK-.json" = true
  ∧ glob_match "entities_CHUNK-12.json.bak" = false
  ∧ glob_match "entities_chunk-12.json" = false
  ∧ glob_match "entities_CHUNK-json" = false.
Proof. by repeat split. Qed.

Lemma mapM'_Ok_inv {A B} (f : A → py_result B) (l : list A) (l' : list B) :
  mapM' f l = Ok l' → Forall2 (fun x y => f x = Ok y) l l'.
Proof.
  revert l'. induction l as [|x l IH]; intros l'; simpl.
  - intros [= <-]. constructor.
  - destruct (f x) as [y|err] eqn:Hx; [| discriminate]. simpl.
    destruct (mapM' f l) as [rest|err]; [| discriminate]. simpl.
    intros [= <-]. constructor; [done | by apply IH].
Qed.

Lemma scan_chunk_file_Ok_inv ids chunks d cs :
  outcome (scan_chunk_file ids chunks d) = Ok cs → artifact_ok ids d.
Proof.
  rewrite scan_chunk_file_outcome.
  destruct (entry_file d) as [| | |data] eqn:Hd; try discriminate.
  unfold scan_chunk.
  destruct (mapM' _ (get (entities data) [])) as [cids|err] eqn:Hm;
    [| discriminate].
  simpl. intros Hcs. exists data. split; [done |].
  apply mapM'_Ok_inv in Hm.
  assert (Forall (fun e => is_Some (entity_id e)) (get (entities data) []))
    as Hents.
  { clear -Hm. induction Hm as [|e i ents is' He _ IH]; constructor; [| done].
    destruct (entity_id e); [eauto | discriminate]. }
  split; [done |]. intros Hhit.
  assert (any_in ids cids = true) as Hany.
  { apply any_in_spec. unfold hits, artifact_ids in Hhit. rewrite Hd in Hhit.
    replace cids with (omap entity_id (get (entities data) [])); [done |].
    clear -Hm. induction Hm as [|e i ents is' He _ IH]; [done |].
    change (omap entity_id (e :: ents))
      with (match entity_id e with
            | Some y => y :: omap entity_id ents
            | None => omap entity_id ents
            end).
    destruct (entity_id e); [| discriminate].
    injection He as ->. by rewrite IH. }
  rewrite Hany in Hcs. destruct (chunk_id data); [eauto | discriminate].
Qed.

(** How a scan of the artifacts ends: either every artifact could be
    processed and was opened, or the scan stopped at the first one that
    could not. *)
Lemma scan_chunk_files_run ids (ds : list DirEntry) :
  ∀ chunks,
    (∃ cs, outcome (for_each (scan_chunk_file ids) chunks ds) = Ok cs
           ∧ trace (for_each (scan_chunk_file ids) chunks ds) = map opening ds
           ∧ Forall (artifact_ok ids) ds)
    ∨ (∃ err pre d post,
         ds = pre ++ d :: post
         ∧ outcome (for_each (scan_chunk_file ids) chunks ds) = Err err
         ∧ trace (for_each (scan_chunk_file ids) chunks ds)
           = map opening (pre ++ [d])
         ∧ Forall (artifact_ok ids) pre
         ∧ ¬ artifact_ok ids d).
Proof.
  induction ds as [|d ds IH]; intros chunks.
  - left. exists chunks. by repeat split.
  - simpl. rewrite outcome_bind, trace_bind, scan_chunk_file_trace.
    destruct (outcome (scan_chunk_file ids chunks d)) as [chunks'|err] eqn:Hd.
    + simpl. apply scan_chunk_file_Ok_inv in Hd as Hok.
      destruct (IH chunks') as [(cs & Hcs & Ht & Hall)
                               |(err & pre & d' & post & -> & Herr & Ht & Hpre & Hbad)].
      * left. exists cs. rewrite Ht. split; [done |]. split; [done |].
        by constructor.
      * right. exists err, (d :: pre), d', post. rewrite Ht.
        split; [done |]. split; [done |]. split; [done |].
        split; [by constructor | done].
    + right. exists err, [], d, ds. simpl.
      split; [done |]. split; [done |]. split; [done |].
      split; [constructor |]. intros Hok.
      destruct (scan_chunk_file_ok ids chunks d Hok) as (cs & Hcs & _).
      congruence.
Qed.

(** X14.  The locator returns exactly when every enumerated artifact can
    be processed: it parses, each of its entities carries an [id], and it
    carries a [chunk_id] if it is selected.  A selected artifact without
    [chunk_id], or any artifact with an entity without [id], makes the
    locator raise. *)
Theorem find_chunks_with_entities_returns_iff (w : World)
    (ids : list string) (dir : string) :
  (∃ cs, outcome (find_chunks_with_entities w ids dir) = Ok cs) ↔
  Forall (artifact_ok ids) (chunk_artifacts w dir).
Proof.
  rewrite find_chunks_with_entities_outcome, <- for_each_outcome. split.
  - intros [cs Hcs].
    destruct (scan_chunk_files_run ids (chunk_artifacts w dir) [])
      as [(_ & _ & _ & Hall)|(err & _ & _ & _ & _ & Herr & _)];
      [done | congruence].
  - intros Hall. rewrite for_each_outcome.
    destruct (scan_chunk_files_ok ids _ Hall []) as (cs & Hcs & _). eauto.
Qed.

(** X15.  The locator scans the directory once and then opens artifacts
    in enumeration order, one [open] each, and only files whose name
    matches the pattern.  When it returns it has opened every such file;
    when it raises it stopped at the first artifact that could not be
    processed and opened none of the later ones. *)
Theorem find_chunks_with_entities_opens (w : World) (ids : list string)
    (dir : string) :
  ∃ opened rest,
    chunk_artifacts w dir = opened ++ rest
    ∧ trace (find_chunks_with_entities w ids dir)
      = EvGlob dir :: map opening opened
    ∧ Forall (fun d => glob_match (entry_name d) = true ∧ d ∈ listdir w dir)
        opened
    ∧ match outcome (find_chunks_with_entities w ids dir) with
      | Ok _ => rest = []
      | Err _ => ∃ pre d, opened = pre ++ [d]
                          ∧ Forall (artifact_ok ids) pre
                          ∧ ¬ artifact_ok ids d
      end.
Proof.
  assert (∀ opened rest,
            chunk_artifacts w dir = opened ++ rest →
            Forall (fun d => glob_match (entry_name d) = true
                             ∧ d ∈ listdir w dir) opened) as Hmatch.
  { intros opened rest Heq. apply Forall_forall. intros d Hd.
    assert (d ∈ chunk_artifacts w dir) as Hin
      by (rewrite Heq; apply elem_of_app; auto).
    unfold chunk_artifacts in Hin. by apply list_elem_of_filter in Hin. }
  unfold find_chunks_with_entities, glob.
  rewrite outcome_bind, trace_bind. simpl. fold (chunk_artifacts w dir).
  destruct (scan_chunk_files_run ids (chunk_artifacts w dir) [])
    as [(cs & Hcs & Ht & _)
       |(err & pre & d & post & Heq & Herr & Ht & Hpre & Hbad)].
  - exists (chunk_artifacts w dir), []. rewrite Hcs, Ht, app_nil_r.
    split; [done |]. split; [done |]. split; [| done].
    apply (Hmatch _ []). by rewrite app_nil_r.
  - exists (pre ++ [d]), post. rewrite Herr, Ht.
    split; [by rewrite <- app_assoc |]. split; [done |].
    split; [apply (Hmatch _ post); by rewrite <- app_assoc |].
    by exists pre, d.
Qed.

(** ** More on [main] *)

(** The result written by a successful run, in terms of what the stages
    returned. *)
Lemma main_success_result w query gf dir out depth r :
  EvWrite out (Success r) ∈ trace (main w query gf dir out depth) →
  ∃ g ms ids related cs sg,
    graph_files w gf = Parsed g
    ∧ search_entities g (split (lower query)) = Ok ms
    ∧ ms ≠ []
    ∧ mapM' (fun e => getitem "id" (node_id e)) ms = Ok ids
    ∧ get_related_entities g ids (get depth 2) = Ok related
    ∧ outcome (find_chunks_with_entities w related dir) = Ok cs
    ∧ get_subgraph g related = Ok sg
    ∧ r = {| sr_query := query;
             sr_status := "success";
             sr_matching_entities := ms;
             sr_total_related_entities := length related;
             sr_relevant_chunks := length cs;
             sr_chunks := take 20 cs;
             sr_subgraph := {| sub_nodes := length (sg_nodes sg);
                               sub_edges := length (sg_edges sg);
                               sub_data := sg |};
             sr_statistics := {| st_direct_matches := length ms;
                                 st_total_related := length related;
                                 st_chunks_found := length cs;
                                 st_search_depth := get depth 2 |} |}.
Proof.
  unfold_main.
  destruct (graph_files w gf) as [| | |g] eqn:Hg; simpl; [no_such_event.. |].
  destruct (search_entities g (split (lower query))) as [ms|err] eqn:Hms;
    simpl; [| no_such_event].
  destruct ms as [|m ms].
  { simpl. destruct (write_outcome w out); simpl; no_such_event. }
  remember (m :: ms) as matches eqn:Hmatches.
  destruct (mapM' (fun e => getitem "id" (node_id e)) matches)
    as [ids|err] eqn:Hids; simpl; [| no_such_event].
  destruct (get_related_entities g ids (get depth 2)) as [related|err]
    eqn:Hrel; simpl; [| no_such_event].
  pose proof (find_chunks_with_entities_trace w related dir) as Hreads.
  destruct (find_chunks_with_entities w related dir) as [[cs|err] t] eqn:Hcs;
    simpl in *.
  2:{ intros H. event_cases H. by apply (reads_only_in _ _ Hreads) in H. }
  destruct (get_subgraph g related) as [sg|err] eqn:Hsg; simpl.
  2:{ intros H. event_cases H. by apply (reads_only_in _ _ Hreads) in H. }
  destruct (write_outcome w out) as [err|] eqn:Hw; simpl;
    intros H; event_cases H;
    try (by apply (reads_only_in _ _ Hreads) in H).
  injection H as ->.
  exists g, matches, ids, related, cs, sg. rewrite Hcs.
  repeat split; try done. by subst.
Qed.

Lemma hop_rounds_grows n G :
  ∀ R R', hop_rounds n G R = Ok R' → R ⊆ R'.
Proof.
  induction n as [|n IH]; intros R R'; simpl.
  - by intros [= <-].
  - destruct (edges G) as [es|]; [| discriminate]. simpl.
    destruct (foldM (scan_edge R) ∅ es) as [new|err]; [| discriminate].
    simpl. intros HR'%IH. etrans; [| exact HR']. apply union_subseteq_l.
Qed.

Lemma get_related_entities_seeds G ids h r :
  get_related_entities G ids h = Ok r → ∀ x, x ∈ ids → x ∈ r.
Proof.
  unfold get_related_entities.
  destruct (hop_rounds (Z.to_nat h) G (list_to_set ids)) as [R'|err] eqn:HR;
    [| discriminate].
  simpl. intros [= <-] x Hx. apply elem_of_elements.
  apply (hop_rounds_grows _ _ _ _ HR). by apply elem_of_list_to_set.
Qed.

Lemma mapM'_elem {A B} (f : A → py_result B) (l : list A) (l' : list B) x :
  mapM' f l = Ok l' → x ∈ l → ∃ y, f x = Ok y ∧ y ∈ l'.
Proof.
  intros HF%mapM'_Ok_inv. induction HF as [|a b l l' Hab _ IH].
  - by intros ?%elem_of_nil.
  - intros [->|Hx]%elem_of_cons.
    + exists b. split; [done | apply list_elem_of_here].
    + destruct (IH Hx) as (y & Hy & Hin). exists y.
      split; [done | by apply list_elem_of_further].
Qed.

(** X16.  In every success result that is written, each directly matching
    entity is a node of the embedded subgraph; so the subgraph has at
    least one node and at least one related entity is counted.  The
    embedded chunk list has [min 20 relevant_chunks] elements, and the
    statistics block repeats the counts of the result. *)
Theorem main_success_coherent (w : World) (query gf dir out : string)
    (depth : option Z) (r : SuccessResult) :
  EvWrite out (Success r) ∈ trace (main w query gf dir out depth) →
  sr_matching_entities r ≠ []
  ∧ (∀ m, m ∈ sr_matching_entities r →
          m ∈ sg_nodes (sub_data (sr_subgraph r)))
  ∧ (1 ≤ sub_nodes (sr_subgraph r))%nat
  ∧ (1 ≤ sr_total_related_entities r)%nat
  ∧ length (sr_chunks r) = Nat.min 20 (sr_relevant_chunks r)
  ∧ st_direct_matches (sr_statistics r) = length (sr_matching_entities r)
  ∧ st_total_related (sr_statistics r) = sr_total_related_entities r
  ∧ st_chunks_found (sr_statistics r) = sr_relevant_chunks r
  ∧ sub_nodes (sr_subgraph r) = length (sg_nodes (sub_data (sr_subgraph r)))
  ∧ sub_edges (sr_subgraph r) = length (sg_edges (sub_data (sr_subgraph r))).
Proof.
  intros (g & ms & ids & related & cs & sg & Hg & Hms & Hne & Hids & Hrel
          & Hcs & Hsg & ->)%main_success_result. simpl.
  assert (∀ m, m ∈ ms → m ∈ sg_nodes sg) as Hnodes.
  { intros m Hm.
    destruct (mapM'_elem _ _ _ _ Hids Hm) as (i & Hi & Hin).
    unfold get_subgraph in Hsg.
    destruct (nodes g) as [ns|] eqn:Hns; [| discriminate]. simpl in Hsg.
    destruct (filterM (node_selected related) ns) as [ns'|] eqn:Hns';
      [| discriminate]. simpl in Hsg.
    destruct (edges g) as [es|]; [| discriminate]. simpl in Hsg.
    destruct (filterM (edge_selected related) es) as [es'|];
      [| discriminate].
    injection Hsg as <-. simpl.
    rewrite (search_entities_filter _ ns) in Hms by done.
    injection Hms as <-. apply list_elem_of_filter in Hm as [_ Hm].
    apply (filterM_keeps _ _ _ _ Hns' Hm).
    unfold node_selected. rewrite Hi. simpl. f_equal.
    apply bool_decide_eq_true.
    by apply (get_related_entities_seeds _ _ _ _ Hrel). }
  split; [done |]. split; [done |].
  destruct ms as [|m ms]; [done |].
  assert (m ∈ sg_nodes sg) as Hm by (apply Hnodes, list_elem_of_here).
  assert (∃ i, i ∈ related) as [i Hi].
  { apply mapM'_Ok_inv in Hids. inversion Hids as [|? i ? is' Hi _]; subst.
    exists i. apply (get_related_entities_seeds _ _ _ _ Hrel), list_elem_of_here. }
  split; [destruct (sg_nodes sg); [by apply elem_of_nil in Hm | simpl; lia] |].
  split; [destruct related; [by apply elem_of_nil in Hi | simpl; lia] |].
  split; [by rewrite length_take |]. done.
Qed.

Lemma main_success_coherent_witness :
  EvWrite "out/result.json" (Success example_success)
    ∈ trace (main example_world "ciso" "graph.json" "chunks"
               "out/result.json" (Some 1))
  ∧ sr_matching_entities example_success ≠ []
  ∧ (∀ m, m ∈ sr_matching_entities example_success →
          m ∈ sg_nodes (sub_data (sr_subgraph example_success)))
  ∧ (1 ≤ sub_nodes (sr_subgraph example_success))%nat
  ∧ (1 ≤ sr_total_related_entities example_success)%nat
  ∧ length (sr_chunks example_success)
    = Nat.min 20 (sr_relevant_chunks example_success)
  ∧ st_direct_matches (sr_statistics example_success)
    = length (sr_matching_entities example_success)
  ∧ st_total_related (sr_statistics example_success)
    = sr_total_related_entities example_success
  ∧ st_chunks_found (sr_statistics example_success)
    = sr_relevant_chunks example_success
  ∧ sub_nodes (sr_subgraph example_success)
    = length (sg_nodes (sub_data (sr_subgraph example_success)))
  ∧ sub_edges (sr_subgraph example_success)
    = length (sg_edges (sub_data (sr_subgraph example_success))).
Proof.
  assert (EvWrite "out/result.json" (Success example_success)
            ∈ trace (main example_world "ciso" "graph.json" "chunks"
                       "out/result.json" (Some 1))) as Hwritten.
  { rewrite main_query_ciso. simpl. do 10 apply list_elem_of_further.
    apply list_elem_of_here. }
  split; [exact Hwritten |].
  apply (main_success_coherent example_world "ciso" "graph.json" "chunks"
           "out/result.json" (Some 1) example_success Hwritten).
Defined.

Lemma mapM'_raises {A B} (f : A → py_result B) (l : list A) (x : A)
    (err : py_error) :
  (∀ a e, f a = Err e → e = err) → x ∈ l → f x = Err err →
  mapM' f l = Err err.
Proof.
  intros Hsame Hin Hx. induction Hin as [x l|x y l Hin IH]; simpl.
  - by rewrite Hx.
  - destruct (f y) as [b|e] eqn:Hy; simpl.
    + by rewrite (IH Hx).
    + by rewrite (Hsame _ _ Hy).
Qed.

(** X17.  The matcher accepts a node without [id] (it reads the key with a
    default), but [main] then reads the [id] of every match without one:
    if some match has no [id], the run raises [KeyError 'id'] right after
    the matcher, before the expander is called, and writes nothing. *)
Theorem main_match_without_id (w : World) (query gf dir out : string)
    (depth : option Z) (g : Graph) (ms : list Node) (m : Node) :
  graph_files w gf = Parsed g →
  search_entities g (split (lower query)) = Ok ms →
  m ∈ ms → node_id m = None →
  main w query gf dir out depth
  = IO (Err (KeyError "id"))
       [EvCall F_load_graph; EvOpen gf; EvCall F_search_entities].
Proof.
  intros Hg Hms Hm Hid.
  assert (mapM' (fun e => getitem "id" (node_id e)) ms = Err (KeyError "id"))
    as Hids.
  { apply mapM'_raises with m; [| done | by rewrite Hid].
    intros a e. destruct (node_id a); [discriminate | by intros [= <-]]. }
  unfold_main. rewrite Hg. simpl. rewrite Hms. simpl.
  destruct ms as [|m' ms]; [by apply elem_of_nil in Hm |].
  by rewrite Hids.
Qed.

Lemma main_match_without_id_witness :
  graph_files idless_world "graph.json" = Parsed idless_graph
  ∧ search_entities idless_graph (split (lower "ciso")) = Ok [idless_node]
  ∧ idless_node ∈ [idless_node]
  ∧ node_id idless_node = None
  ∧ main idless_world "ciso" "graph.json" "chunks" "out/result.json" None
    = IO (Err (KeyError "id"))
         [EvCall F_load_graph; EvOpen "graph.json"; EvCall F_search_entities].
Proof.
  assert (idless_node ∈ [idless_node]) as Hin by apply list_elem_of_here.
  split; [reflexivity |]. split; [reflexivity |]. split; [exact Hin |].
  split; [reflexivity |].
  apply (main_match_without_id idless_world "ciso" "graph.json" "chunks"
           "out/result.json" None idless_graph [idless_node] idless_node
           eq_refl eq_refl Hin eq_refl).
Defined.

(** * Properties of [explore_graph.py] *)

(** ** Counters *)

Lemma count_of_incr k k' c :
  count_of k' (counter_incr k c)
  = (count_of k' c + if decide (k = k') then 1 else 0)%nat.
Proof.
  induction c as [|[k0 n] c IH]; simpl.
  - destruct (String.eqb_spec k k'); destruct (decide (k = k')); done.
  - destruct (String.eqb_spec k0 k) as [->|Hne]; simpl.
    + destruct (String.eqb_spec k k'); destruct (decide (k = k')); try done; lia.
    + destruct (String.eqb_spec k0 k') as [->|Hne'].
      * destruct (decide (k = k')); [congruence | lia].
      * apply IH.
Qed.

Lemma keys_incr k c :
  map fst (counter_incr k c)
  = if decide (k ∈ map fst c) then map fst c else map fst c ++ [k].
Proof.
  induction c as [|[k0 n] c IH]; simpl.
  - by destruct (decide (k ∈ [])) as [?%elem_of_nil|].
  - destruct (String.eqb_spec k0 k) as [->|Hne]; simpl.
    + destruct (decide (k ∈ k :: map fst c)) as [|[]]; [done | left].
    + rewrite IH. destruct (decide (k ∈ map fst c)) as [Hin|Hout].
      * destruct (decide (k ∈ k0 :: map fst c)) as [|[]]; [done | by right].
      * destruct (decide (k ∈ k0 :: map fst c))
          as [[->|?]%elem_of_cons|]; done.
Qed.

Lemma total_incr k c : total (counter_incr k c) = S (total c).
Proof.
  unfold total. induction c as [|[k0 n] c IH]; simpl; [done |].
  destruct (String.eqb k0 k); simpl; [done | rewrite IH; lia].
Qed.

Lemma positive_incr k c :
  Forall (fun x => (0 < snd x)%nat) c →
  Forall (fun x => (0 < snd x)%nat) (counter_incr k c).
Proof.
  induction 1 as [|[k0 n] c Hn Hc IH]; simpl.
  - repeat constructor.
  - destruct (String.eqb k0 k); constructor; simpl in *; try done; lia.
Qed.

Lemma NoDup_keys_incr k c :
  NoDup (map fst c) → NoDup (map fst (counter_incr k c)).
Proof.
  intros Hnd. rewrite keys_incr. destruct (decide (k ∈ map fst c)); [done |].
  apply NoDup_app. split; [done |]. split.
  - intros x Hx ->%list_elem_of_singleton. done.
  - apply NoDup_singleton.
Qed.

(** What a tally of [keys] started from the counter [c] holds. *)
Lemma tally_from keys :
  ∀ c, NoDup (map fst c) → Forall (fun x => (0 < snd x)%nat) c →
       let c' := fold_left (fun c k => counter_incr k c) keys c in
       NoDup (map fst c')
       ∧ Forall (fun x => (0 < snd x)%nat) c'
       ∧ total c' = (total c + length keys)%nat
       ∧ (∀ k, count_of k c' = (count_of k c + occurrences k keys)%nat)
       ∧ (∀ k, k ∈ map fst c' ↔ k ∈ map fst c ∨ k ∈ keys).
Proof.
  induction keys as [|k0 keys IH]; intros c Hnd Hpos; simpl.
  - split; [done |]. split; [done |]. split; [lia |].
    split; [intros k; unfold occurrences; simpl; lia |].
    intros k. split; [tauto | intros [?|?%elem_of_nil]; done].
  - destruct (IH (counter_incr k0 c)) as (Hnd' & Hpos' & Htot & Hcount & Hkeys).
    { by apply NoDup_keys_incr. }
    { by apply positive_incr. }
    split; [done |]. split; [done |].
    split; [rewrite Htot, total_incr; lia |]. split.
    + intros k. rewrite Hcount, count_of_incr. unfold occurrences.
      rewrite filter_cons. destruct (decide (k0 = k)); simpl; lia.
    + intros k. rewrite Hkeys, keys_incr, elem_of_cons.
      destruct (decide (k0 ∈ map fst c)) as [Hin|Hout].
      * split; [tauto |]. intros [?|[->|?]]; auto.
      * rewrite elem_of_app, list_elem_of_singleton. tauto.
Qed.

Lemma count_of_member k n c :
  NoDup (map fst c) → (k, n) ∈ c ↔ k ∈ map fst c ∧ count_of k c = n.
Proof.
  induction c as [|[k0 n0] c IH]; simpl; intros Hnd.
  - split; [by intros ?%elem_of_nil | by intros [?%elem_of_nil _]].
  - apply NoDup_cons in Hnd as [Hk0 Hnd].
    rewrite !elem_of_cons, (IH Hnd).
    destruct (String.eqb_spec k0 k) as [->|Hne].
    + split.
      * intros [[= <-]|[Hin _]]; [auto | done].
      * intros [_ <-]. by left.
    + split.
      * intros [[= ? ?]|[Hin Hc]]; [congruence | auto].
      * intros [[?|Hin] Hc]; [congruence | auto].
Qed.

Lemma insert_by_count_perm x l : insert_by_count x l ≡ₚ x :: l.
Proof.
  induction l as [|y l IH]; simpl; [done |].
  destruct (snd y <=? snd x)%nat; [done |].
  rewrite IH. apply Permutation_swap.
Qed.

Lemma most_common_perm c : most_common c ≡ₚ c.
Proof.
  induction c as [|x c IH]; simpl; [done |].
  by rewrite insert_by_count_perm, IH.
Qed.

Lemma insert_by_count_sorted x l :
  Sorted count_ge l → Sorted count_ge (insert_by_count x l).
Proof.
  induction 1 as [|y l Hl IH Hhd]; simpl.
  - by repeat constructor.
  - destruct (Nat.leb_spec (snd y) (snd x)) as [Hle|Hlt].
    + constructor; [by constructor |]. constructor. exact Hle.
    + constructor; [done |].
      destruct l as [|z l]; simpl in *.
      * constructor. unfold count_ge. lia.
      * destruct (snd z <=? snd x)%nat.
        -- constructor. unfold count_ge. lia.
        -- inversion Hhd; subst. by constructor.
Qed.

Lemma most_common_sorted c : Sorted count_ge (most_common c).
Proof.
  induction c as [|x c IH]; simpl; [constructor |].
  by apply insert_by_count_sorted.
Qed.

Lemma total_perm c c' : c ≡ₚ c' → total c = total c'.
Proof.
  unfold total. induction 1; simpl; lia.
Qed.

(** The tally [Counter(keys).most_common()]: one entry per distinct key
    with its number of occurrences, by decreasing count. *)
Lemma tally_spec (keys : list string) :
  let t := most_common (Counter keys) in
  total t = length keys
  ∧ NoDup (map fst t)
  ∧ Sorted count_ge t
  ∧ ∀ k n, (k, n) ∈ t ↔ k ∈ keys ∧ n = occurrences k keys.
Proof.
  destruct (tally_from keys []) as (Hnd & Hpos & Htot & Hcount & Hkeys);
    [constructor | constructor |].
  fold (Counter keys) in *. simpl.
  pose proof (most_common_perm (Counter keys)) as Hperm.
  split; [by rewrite (total_perm _ _ Hperm), Htot |].
  split; [by rewrite Hperm |].
  split; [apply most_common_sorted |].
  intros k n. rewrite Hperm, (count_of_member _ _ _ Hnd), Hkeys, Hcount.
  simpl. split.
  - intros [[?%elem_of_nil|?] <-]; done.
  - intros [? ->]. auto.
Qed.

(** ** [get_stats] *)

Lemma mapM'_getitem {A} key (proj : A → option string) (l : list A) :
  Forall (fun x => is_Some (proj x)) l →
  mapM' (fun x => getitem key (proj x)) l = Ok (omap proj l).
Proof.
  induction 1 as [|x l [v Hv] _ IH]; [done |].
  simpl. rewrite Hv. simpl. by rewrite IH.
Qed.

Lemma omap_length_all {A} (proj : A → option string) (l : list A) :
  Forall (fun x => is_Some (proj x)) l → length (omap proj l) = length l.
Proof.
  induction 1 as [|x l [v Hv] _ IH]; [done |].
  change (omap proj (x :: l))
    with (match proj x with Some y => y :: omap proj l | None => omap proj l end).
  rewrite Hv. simpl. by rewrite IH.
Qed.

(** X18.  On a graph whose nodes and edges all carry a [type], the
    statistics are consistent: the per-type counts of the entities add up
    to [total_nodes], those of the relationships to [total_edges].  Each
    breakdown has one entry per type that occurs, holding the number of
    its occurrences, and lists the types by decreasing count. *)
Theorem get_stats_spec (G : Graph) (ns : list Node) (es : list Edge) :
  nodes G = Some ns → edges G = Some es →
  Forall (fun n => is_Some (node_type n)) ns →
  Forall (fun e => is_Some (edge_type e)) es →
  ∃ st, get_stats G = Ok st
        ∧ total_nodes st = length ns
        ∧ total_edges st = length es
        ∧ total (entity_types st) = total_nodes st
        ∧ total (relationship_types st) = total_edges st
        ∧ NoDup (map fst (entity_types st))
        ∧ NoDup (map fst (relationship_types st))
        ∧ Sorted count_ge (entity_types st)
        ∧ Sorted count_ge (relationship_types st)
        ∧ (∀ t n, (t, n) ∈ entity_types st ↔
                  t ∈ omap node_type ns
                  ∧ n = occurrences t (omap node_type ns))
        ∧ (∀ t n, (t, n) ∈ relationship_types st ↔
                  t ∈ omap edge_type es
                  ∧ n = occurrences t (omap edge_type es)).
Proof.
  intros Hns Hes Hnt Het. unfold get_stats. rewrite Hns, Hes. simpl.
  rewrite (mapM'_getitem "type" node_type ns Hnt). simpl.
  rewrite (mapM'_getitem "type" edge_type es Het). simpl.
  eexists. split; [reflexivity |]. simpl.
  destruct (tally_spec (omap node_type ns)) as (Ht1 & Hnd1 & Hs1 & Hm1).
  destruct (tally_spec (omap edge_type es)) as (Ht2 & Hnd2 & Hs2 & Hm2).
  rewrite (omap_length_all _ _ Hnt) in Ht1.
  rewrite (omap_length_all _ _ Het) in Ht2.
  repeat (split; [done |]). done.
Qed.

Lemma get_stats_spec_witness :
  nodes example_graph = Some (get (nodes example_graph) [])
  ∧ edges example_graph = Some (get (edges example_graph) [])
  ∧ ∃ st, get_stats example_graph = Ok st
        ∧ total_nodes st = length (get (nodes example_graph) [])
        ∧ total_edges st = length (get (edges example_graph) [])
        ∧ total (entity_types st) = total_nodes st
        ∧ total (relationship_types st) = total_edges st
        ∧ NoDup (map fst (entity_types st))
        ∧ NoDup (map fst (relationship_types st))
        ∧ Sorted count_ge (entity_types st)
        ∧ Sorted count_ge (relationship_types st)
        ∧ (∀ t n, (t, n) ∈ entity_types st ↔
                  t ∈ omap node_type (get (nodes example_graph) [])
                  ∧ n = occurrences t (omap node_type (get (nodes example_graph) [])))
        ∧ (∀ t n, (t, n) ∈ relationship_types st ↔
                  t ∈ omap edge_type (get (edges example_graph) [])
                  ∧ n = occurrences t (omap edge_type (get (edges example_graph) []))).
Proof.
  split; [reflexivity |]. split; [reflexivity |].
  apply (get_stats_spec example_graph _ _ eq_refl eq_refl);
    repeat constructor; by eexists.
Defined.

Example get_stats_example_graph :
  get_stats example_graph
  = Ok {| total_nodes := 3;
          total_edges := 1;
          entity_types := [("CONCEPT", 2%nat); ("ROLE", 1%nat)];
          relationship_types := [("RELATES_TO", 1%nat)] |}.
Proof. reflexivity. Qed.

(** ** [get_most_connected] *)

Lemma count_edges_ok (es : list Edge) :
  Forall edge_ok es →
  ∀ c, foldM count_edge c es
       = Ok (fold_left (fun c k => counter_incr k c) (endpoint_list es) c).
Proof.
  induction 1 as [|e es [[f Hf] [t Ht]] _ IH]; intros c; [done |].
  change (foldM count_edge c (e :: es))
    with (count_edge c e ≫= fun c' => foldM count_edge c' es).
  unfold count_edge. rewrite Hf, Ht. simpl. rewrite IH.
  unfold endpoint_list. simpl. by rewrite Hf, Ht.
Qed.

Lemma entity_map_from (ns : list Node) :
  Forall (fun n => is_Some (node_id n)) ns →
  ∀ m0, ∃ m,
    foldM (fun (m : gmap string Node) n =>
             i ← getitem "id" (node_id n); Ok (<[i := n]> m)) m0 ns = Ok m
    ∧ ∀ i, m !! i = match last_with_id i ns with
                    | Some n => Some n
                    | None => m0 !! i
                    end.
Proof.
  induction 1 as [|n ns [i0 Hi0] _ IH]; intros m0.
  - exists m0. by split.
  - destruct (IH (<[i0 := n]> m0)) as (m & Hm & Hlook).
    exists m. split; [simpl; by rewrite Hi0 |].
    intros i. rewrite Hlook. unfold last_with_id. rewrite filter_cons.
    destruct (decide (node_id n = Some i)) as [Heq|Hne].
    + rewrite last_cons. destruct (last _); [done |].
      rewrite Hi0 in Heq. injection Heq as ->. by rewrite lookup_insert_eq.
    + destruct (last _); [done |].
      rewrite lookup_insert_ne; [done |]. congruence.
Qed.

Lemma entity_map_spec (ns : list Node) :
  Forall (fun n => is_Some (node_id n)) ns →
  ∃ m, build_entity_map ns = Ok m ∧ ∀ i, m !! i = last_with_id i ns.
Proof.
  intros Hns. destruct (entity_map_from ns Hns ∅) as (m & Hm & Hlook).
  exists m. split; [done |]. intros i. rewrite Hlook, lookup_empty.
  by destruct (last_with_id i ns).
Qed.

Lemma last_with_id_Some i ns n :
  last_with_id i ns = Some n → n ∈ ns ∧ node_id n = Some i.
Proof.
  unfold last_with_id. intros Hlast.
  assert (n ∈ filter (fun n => node_id n = Some i) ns) as Hin.
  { apply last_Some in Hlast as [l' ->]. apply elem_of_app. right. left. }
  apply list_elem_of_filter in Hin. tauto.
Qed.

(** The ranking loop, on a map whose nodes carry their keys: each of the
    top entries that names a node yields one element, in order. *)
Lemma ranking_loop (m : gmap string Node) (tops : counter) :
  (∀ i n, m !! i = Some n → node_full n) →
  ∀ acc, ∃ rs,
    foldM (fun result '(entity_id, count) =>
             match m !! entity_id with
             | Some n =>
                 text ← getitem "text" (node_text n);
                 type ← getitem "type" (node_type n);
                 Ok (result ++ [ {| ce_id := entity_id;
                                    ce_text := text;
                                    ce_type := type;
                                    ce_connections := count |} ])
             | None => Ok result
             end) acc tops = Ok (acc ++ rs)
    ∧ map (fun r => (ce_id r, ce_connections r)) rs `sublist_of` tops
    ∧ ∀ r, r ∈ rs → ∃ n, m !! ce_id r = Some n
                         ∧ node_text n = Some (ce_text r)
                         ∧ node_type n = Some (ce_type r).
Proof.
  intros Hfull. induction tops as [|[k c] tops IH]; intros acc.
  - exists []. rewrite app_nil_r. split; [done |]. split; [apply sublist_nil |].
    intros r Hr. by apply elem_of_nil in Hr.
  - simpl. destruct (m !! k) as [n|] eqn:Hk.
    + destruct (Hfull _ _ Hk) as (_ & [tx Htx] & [ty Hty]).
      rewrite Htx, Hty. simpl.
      destruct (IH (acc ++ [ {| ce_id := k; ce_text := tx; ce_type := ty;
                                ce_connections := c |} ]))
        as (rs & Hrs & Hsub & Hin).
      exists ({| ce_id := k; ce_text := tx; ce_type := ty;
                 ce_connections := c |} :: rs).
      split; [by rewrite Hrs, <- app_assoc |].
      split; [simpl; by apply sublist_skip |].
      intros r [->|Hr]%elem_of_cons; [exists n; by simpl | by apply Hin].
    + destruct (IH acc) as (rs & Hrs & Hsub & Hin).
      exists rs. split; [done |]. split; [by apply sublist_cons | done].
Qed.

#[local] Instance count_ge_trans : Transitive count_ge.
Proof. unfold count_ge. intros x y z ? ?. lia. Qed.

Lemma StronglySorted_sublist {A} (R : relation A) (l1 l2 : list A) :
  l1 `sublist_of` l2 → StronglySorted R l2 → StronglySorted R l1.
Proof.
  induction 1 as [|x l1 l2 Hsub IH|x l1 l2 Hsub IH]; intros Hs.
  - constructor.
  - inversion Hs as [|? ? Hs' Hall]; subst. constructor; [by apply IH |].
    rewrite Forall_forall in Hall |- *. intros y Hy. apply Hall.
    by eapply elem_of_sublist.
  - inversion Hs; subst. by apply IH.
Qed.

Lemma Forall_map_inv {A B} (f : A → B) (P : B → Prop) (l : list A) :
  Forall P (map f l) → Forall (fun x => P (f x)) l.
Proof.
  induction l as [|x l IH]; simpl; [constructor |].
  intros [Hx Hl]%Forall_cons_1. constructor; [done | by apply IH].
Qed.

Lemma sublist_elem_of_pair {A} (l1 l2 : list A) x :
  l1 `sublist_of` l2 → x ∈ l1 → x ∈ l2.
Proof. intros Hsub Hx. by eapply elem_of_sublist. Qed.

(** The ranking [get_most_connected] computes, with what each element
    means. *)
Lemma get_most_connected_run (G : Graph) (ns : list Node) (es : list Edge)
    (top_n : Z) :
  nodes G = Some ns → edges G = Some es →
  Forall node_full ns → Forall edge_ok es →
  ∃ rs,
    get_most_connected G top_n = Ok rs
    ∧ map (fun r => (ce_id r, ce_connections r)) rs
      `sublist_of` take (Z.to_nat top_n)
                     (most_common (Counter (endpoint_list es)))
    ∧ ∀ r, r ∈ rs → ∃ n, last_with_id (ce_id r) ns = Some n
                         ∧ node_text n = Some (ce_text r)
                         ∧ node_type n = Some (ce_type r).
Proof.
  intros Hns Hes Hfull Hok. unfold get_most_connected.
  rewrite Hes. simpl. rewrite (count_edges_ok es Hok). simpl.
  rewrite Hns. simpl.
  destruct (entity_map_spec ns) as (m & -> & Hlook).
  { eapply Forall_impl; [exact Hfull |]. by intros n (? & _). }
  simpl. fold (Counter (endpoint_list es)).
  destruct (ranking_loop m (most_common_n top_n (Counter (endpoint_list es))))
    with (acc := @nil Connected) as (rs & Hrs & Hsub & Hin).
  { intros i n Hi. rewrite Hlook in Hi.
    apply last_with_id_Some in Hi as [Hi _].
    rewrite Forall_forall in Hfull. by apply Hfull. }
  exists rs. split; [exact Hrs |]. split; [exact Hsub |].
  intros r Hr. destruct (Hin r Hr) as (n & Hn & Htx & Hty).
  exists n. by rewrite <- Hlook.
Qed.

(** X19.  On a graph whose nodes carry [id], [text] and [type] and whose
    edges carry both endpoints, the ranking has at most [top_n] elements
    (none for a negative [top_n]), no identifier twice, and is ordered by
    decreasing [connections]; each element names a node of the graph, and
    its [connections] is the number of edge endpoints equal to its
    identifier (a self-loop counting twice). *)
Theorem get_most_connected_ranking (G : Graph) (ns : list Node)
    (es : list Edge) (top_n : Z) :
  nodes G = Some ns → edges G = Some es →
  Forall node_full ns → Forall edge_ok es →
  ∃ rs,
    get_most_connected G top_n = Ok rs
    ∧ (length rs ≤ Z.to_nat top_n)%nat
    ∧ NoDup (map ce_id rs)
    ∧ Sorted connections_ge rs
    ∧ ∀ r, r ∈ rs →
           ce_id r ∈ node_ids ns
           ∧ ce_connections r = occurrences (ce_id r) (endpoint_list es)
           ∧ (1 ≤ ce_connections r)%nat.
Proof.
  intros Hns Hes Hfull Hok.
  destruct (get_most_connected_run G ns es top_n Hns Hes Hfull Hok)
    as (rs & Hrs & Hsub & Hin).
  destruct (tally_spec (endpoint_list es)) as (_ & Hnd & Hsorted & Hmem).
  simpl in *.
  set (tops := most_common (Counter (endpoint_list es))) in *.
  assert (map (fun r => (ce_id r, ce_connections r)) rs `sublist_of` tops)
    as Hsub' by (etrans; [exact Hsub | apply sublist_take]).
  exists rs. split; [done |]. split.
  { apply sublist_length in Hsub. rewrite length_map, length_take in Hsub. lia. }
  split.
  { apply (sublist_NoDup _ (map fst tops)); [exact Hnd |].
    replace (map ce_id rs)
      with (map fst (map (fun r => (ce_id r, ce_connections r)) rs)).
    - by apply (fmap_sublist fst).
    - by rewrite map_map. }
  split.
  { apply Sorted_StronglySorted in Hsorted; [| apply count_ge_trans].
    apply (StronglySorted_sublist _ _ _ Hsub') in Hsorted.
    apply StronglySorted_Sorted.
    clear -Hsorted. induction rs as [|r rs IH]; [constructor |].
    simpl in Hsorted. apply StronglySorted_inv in Hsorted as [Hs Hall].
    constructor; [by apply IH |].
    apply Forall_map_inv in Hall. eapply Forall_impl; [exact Hall |].
    by intros r'. }
  intros r Hr.
  assert ((ce_id r, ce_connections r) ∈ tops) as Htop.
  { apply (sublist_elem_of_pair _ _ _ Hsub').
    apply (list_elem_of_fmap_2 (fun r => (ce_id r, ce_connections r))), Hr. }
  apply Hmem in Htop as [Hend Hcount].
  destruct (Hin r Hr) as (n & Hn & _).
  apply last_with_id_Some in Hn as [Hnin Hid].
  split; [| split; [done |]].
  - unfold node_ids. apply list_elem_of_omap. eauto.
  - rewrite Hcount. unfold occurrences.
    assert (ce_id r ∈ filter (fun x => x = ce_id r) (endpoint_list es)) as Hf
      by (apply list_elem_of_filter; auto).
    destruct (filter _ _); [by apply elem_of_nil in Hf | simpl; lia].
Qed.

Lemma chain_graph_nodes_full : Forall node_full (get (nodes chain_graph) []).
Proof. repeat constructor; by eexists. Qed.

Lemma duplicate_nodes_full : Forall node_full duplicate_nodes.
Proof. repeat constructor; by eexists. Qed.

Lemma duplicate_edges_ok : Forall edge_ok duplicate_edges.
Proof. repeat constructor; by eexists. Qed.

Lemma get_most_connected_ranking_witness :
  nodes chain_graph = Some (get (nodes chain_graph) [])
  ∧ edges chain_graph = Some chain_edges
  ∧ Forall node_full (get (nodes chain_graph) [])
  ∧ Forall edge_ok chain_edges
  ∧ ∃ rs,
      get_most_connected chain_graph 2 = Ok rs
      ∧ (length rs ≤ Z.to_nat 2)%nat
      ∧ NoDup (map ce_id rs)
      ∧ Sorted connections_ge rs
      ∧ ∀ r, r ∈ rs →
             ce_id r ∈ node_ids (get (nodes chain_graph) [])
             ∧ ce_connections r = occurrences (ce_id r) (endpoint_list chain_edges)
             ∧ (1 ≤ ce_connections r)%nat.
Proof.
  split; [reflexivity |]. split; [reflexivity |].
  split; [apply chain_graph_nodes_full |].
  split; [apply chain_graph_edges_ok |].
  apply (get_most_connected_ranking chain_graph _ chain_edges 2 eq_refl eq_refl
           chain_graph_nodes_full chain_graph_edges_ok).
Defined.

(** X20.  When several nodes carry the same identifier, the ranking takes
    the [text] and [type] of an element from the last of them in storage
    order. *)
Theorem get_most_connected_last_node (G : Graph) (ns : list Node)
    (es : list Edge) (top_n : Z) :
  nodes G = Some ns → edges G = Some es →
  Forall node_full ns → Forall edge_ok es →
  ∃ rs,
    get_most_connected G top_n = Ok rs
    ∧ ∀ r, r ∈ rs → ∃ n, last_with_id (ce_id r) ns = Some n
                         ∧ node_text n = Some (ce_text r)
                         ∧ node_type n = Some (ce_type r).
Proof.
  intros Hns Hes Hfull Hok.
  destruct (get_most_connected_run G ns es top_n Hns Hes Hfull Hok)
    as (rs & Hrs & _ & Hin).
  by exists rs.
Qed.

Lemma get_most_connected_last_node_witness :
  nodes duplicate_graph = Some duplicate_nodes
  ∧ edges duplicate_graph = Some duplicate_edges
  ∧ Forall node_full duplicate_nodes
  ∧ Forall edge_ok duplicate_edges
  ∧ ∃ rs,
      get_most_connected duplicate_graph 20 = Ok rs
      ∧ ∀ r, r ∈ rs → ∃ n, last_with_id (ce_id r) duplicate_nodes = Some n
                           ∧ node_text n = Some (ce_text r)
                           ∧ node_type n = Some (ce_type r).
Proof.
  split; [reflexivity |]. split; [reflexivity |].
  split; [apply duplicate_nodes_full |].
  split; [apply duplicate_edges_ok |].
  apply (get_most_connected_last_node duplicate_graph _ _ 20 eq_refl eq_refl
           duplicate_nodes_full duplicate_edges_ok).
Defined.

(** The node A has three endpoints (one edge to B, one self-loop) and the
    label of its last occurrence. *)
Example get_most_connected_duplicate_graph :
  get_most_connected duplicate_graph 20
  = Ok [ {| ce_id := "A"; ce_text := "new label"; ce_type := "concept";
            ce_connections := 3 |};
         {| ce_id := "B"; ce_text := "other"; ce_type := "Concept";
            ce_connections := 1 |} ].
Proof. vm_compute. reflexivity. Qed.

(** ** [list_by_type] *)

Lemma list_node_ok entity_type n :
  node_listable entity_type n →
  list_node entity_type n
  = Ok (if decide (type_matches entity_type n) then Some (listed n) else None).
Proof.
  intros [[ty Hty] Hmatch]. unfold list_node. rewrite Hty. simpl.
  destruct (String.eqb_spec (upper ty) (upper entity_type)) as [Heq|Hne].
  - assert (type_matches entity_type n) as Hm by (exists ty; auto).
    destruct (Hmatch Hm) as [[i Hi] [tx Htx]]. rewrite Hi, Htx. simpl.
    destruct (decide (type_matches entity_type n)); [| done].
    unfold listed. by rewrite Hi, Htx, Hty.
  - destruct (decide (type_matches entity_type n))
      as [(ty' & Hty' & Heq)|]; [| done].
    rewrite Hty in Hty'. injection Hty' as <-. done.
Qed.

Lemma list_node_returns entity_type n :
  (∃ r, list_node entity_type n = Ok r) ↔ node_listable entity_type n.
Proof.
  split; [| intros H; rewrite (list_node_ok _ _ H); eauto].
  unfold list_node, node_listable, type_matches. intros [r Hr].
  destruct (node_type n) as [ty|]; [| discriminate]. simpl in Hr.
  split; [eauto |]. intros (ty' & [= <-] & Heq).
  rewrite Heq, String.eqb_refl in Hr.
  destruct (node_id n); [| discriminate].
  destruct (node_text n); [eauto | discriminate].
Qed.

Lemma list_items_ok entity_type (ns : list Node) :
  Forall (node_listable entity_type) ns →
  ∃ items, mapM' (list_node entity_type) ns = Ok items
           ∧ omap id items
             = map listed (filter (type_matches entity_type) ns).
Proof.
  induction 1 as [|n ns Hn _ (items & Hitems & Heq)].
  - by exists [].
  - simpl. rewrite (list_node_ok _ _ Hn), Hitems. simpl.
    eexists. split; [reflexivity |].
    rewrite filter_cons. destruct (decide (type_matches entity_type n)).
    + change (omap id (Some (listed n) :: items))
        with (listed n :: omap id items). by rewrite Heq.
    + change (omap id (None :: items)) with (omap id items). done.
Qed.

Lemma mapM'_returns {A B} (f : A → py_result B) (l : list A) :
  (∃ l', mapM' f l = Ok l') ↔ Forall (fun x => ∃ y, f x = Ok y) l.
Proof.
  induction l as [|x l IH]; simpl.
  - split; [by constructor | eauto].
  - rewrite Forall_cons, <- IH. destruct (f x) as [y|err]; simpl.
    + destruct (mapM' f l) as [rest|err]; simpl.
      * split; eauto.
      * split; [by intros [? ?] | by intros [_ [? ?]]].
    + split; [by intros [? ?] | by intros [[? ?] _]].
Qed.

(** X21.  [list_by_type] returns exactly when the graph has a node list in
    which every node carries a [type] and every node of the requested
    type also carries [id] and [text].  The limit plays no part in this:
    the whole listing is built before it is cut, so a node beyond the
    limit still makes the function raise. *)
Theorem list_by_type_returns_iff (G : Graph) (entity_type : string)
    (limit : Z) :
  (∃ r, list_by_type G entity_type limit = Ok r) ↔
  ∃ ns, nodes G = Some ns ∧ Forall (node_listable entity_type) ns.
Proof.
  unfold list_by_type. split.
  - intros [r Hr]. destruct (nodes G) as [ns|]; [| discriminate].
    simpl in Hr. exists ns. split; [done |].
    destruct (mapM' (list_node entity_type) ns) as [items|] eqn:Hitems;
      [| discriminate].
    eapply Forall_impl;
      [apply (mapM'_returns (list_node entity_type)); eauto |].
    intros n. apply list_node_returns.
  - intros (ns & -> & Hns). simpl.
    destruct (list_items_ok _ _ Hns) as (items & -> & _). simpl. eauto.
Qed.

(** X22.  With a limit that is not negative, [list_by_type] returns the
    first [limit] nodes of the requested type, in storage order; the type
    is compared without regard to letter case. *)
Theorem list_by_type_limit (G : Graph) (ns : list Node) (entity_type : string)
    (limit : Z) :
  nodes G = Some ns → Forall (node_listable entity_type) ns → 0 ≤ limit →
  ∃ r, list_by_type G entity_type limit = Ok r
       ∧ r = take (Z.to_nat limit)
               (map listed (filter (type_matches entity_type) ns))
       ∧ length r = Nat.min (Z.to_nat limit)
                      (length (filter (type_matches entity_type) ns))
       ∧ ∀ x, x ∈ r → upper (le_type x) = upper entity_type.
Proof.
  intros Hns Hok Hlimit. unfold list_by_type. rewrite Hns. simpl.
  destruct (list_items_ok _ _ Hok) as (items & -> & Heq). simpl.
  eexists. split; [reflexivity |]. rewrite Heq. unfold slice_to.
  destruct (Z.leb_spec 0 limit); [| lia].
  split; [done |]. split; [by rewrite length_take, length_map |].
  intros x Hx. apply elem_of_take in Hx as (i & Hx & _).
  apply list_elem_of_lookup_2 in Hx.
  apply list_elem_of_fmap in Hx as (n & -> & Hn).
  apply list_elem_of_filter in Hn as [(ty & Hty & Heq') _].
  unfold listed. simpl. by rewrite Hty.
Qed.

Lemma list_by_type_limit_witness :
  nodes duplicate_graph = Some duplicate_nodes
  ∧ Forall (node_listable "CONCEPT") duplicate_nodes
  ∧ 0 ≤ 1
  ∧ ∃ r, list_by_type duplicate_graph "CONCEPT" 1 = Ok r
         ∧ r = take (Z.to_nat 1)
                 (map listed (filter (type_matches "CONCEPT") duplicate_nodes))
         ∧ length r = Nat.min (Z.to_nat 1)
                        (length (filter (type_matches "CONCEPT") duplicate_nodes))
         ∧ ∀ x, x ∈ r → upper (le_type x) = upper "CONCEPT".
Proof.
  assert (Forall (node_listable "CONCEPT") duplicate_nodes) as Hok.
  { repeat constructor; try (by eexists); intros _; split; by eexists. }
  assert (0 ≤ 1) as Hle by lia.
  split; [reflexivity |]. split; [exact Hok |]. split; [exact Hle |].
  apply (list_by_type_limit duplicate_graph _ "CONCEPT" 1 eq_refl Hok Hle).
Defined.



(** Two nodes have the type [concept] up to case; a limit of [-1] returns
    the first of them. *)
Example list_by_type_minus_one :
  list_by_type duplicate_graph "concept" (-1)
  = Ok [ {| le_id := "B"; le_text := "other"; le_type := "Concept" |} ].
Proof. reflexivity. Qed.

(** * Properties of [extract_graph_entities.py] *)

(** ** [load_chunk] *)

(** X24.  [load_chunk] returns the first chunk that carries the requested
    id, whatever follows it, and raises the validation error
    [CHUNK_NOT_FOUND], naming the id, exactly when no chunk carries it (a
    chunk without [chunk_id] never matches). *)
Theorem load_chunk_spec (chunks : list SourceChunk) (chunk_id : string) :
  (∀ c, load_chunk chunks chunk_id = Valid c ↔
        ∃ pre post, chunks = pre ++ c :: post
                    ∧ sc_chunk_id c = Some chunk_id
                    ∧ Forall (fun x => sc_chunk_id x ≠ Some chunk_id) pre)
  ∧ (∀ e, load_chunk chunks chunk_id = Invalid e ↔
          Forall (fun x => sc_chunk_id x ≠ Some chunk_id) chunks
          ∧ e = ValidationError ("Chunk " +:+ chunk_id +:+ " not found")
                  "CHUNK_NOT_FOUND").
Proof.
  induction chunks as [|x chunks [IHv IHi]]; simpl.
  - split.
    + intros c. split; [done |]. intros (pre & post & Heq & _).
      by destruct pre.
    + intros e. split; [intros [= <-]; by split | by intros [_ ->]].
  - destruct (decide (sc_chunk_id x = Some chunk_id)) as [Hx|Hx]; split.
    + intros c. split.
      * intros [= <-]. exists [], chunks. by repeat split.
      * intros (pre & post & Heq & Hc & Hpre). destruct pre as [|y pre].
        -- simpl in Heq. by injection Heq as ->.
        -- simpl in Heq. injection Heq as -> _.
           by apply Forall_cons_1 in Hpre as [? _].
    + intros e. split; [done |]. by intros [[? _]%Forall_cons_1 _].
    + intros c. rewrite IHv. split.
      * intros (pre & post & -> & Hc & Hpre). exists (x :: pre), post.
        split; [done |]. split; [done | by constructor].
      * intros (pre & post & Heq & Hc & Hpre). destruct pre as [|y pre].
        -- simpl in Heq. injection Heq as -> _. done.
        -- simpl in Heq. injection Heq as -> ->.
           apply Forall_cons_1 in Hpre as [_ Hpre]. by exists pre, post.
    + intros e. rewrite IHi, Forall_cons. tauto.
Qed.

Example load_chunk_first_wins :
  load_chunk [ mkSourceChunk None (Some "no id");
               mkSourceChunk (Some "c1") (Some "first");
               mkSourceChunk (Some "c1") (Some "second") ] "c1"
  = Valid (mkSourceChunk (Some "c1") (Some "first")).
Proof. reflexivity. Qed.

(** ** [extract_entities_simple] *)

Lemma omap_seq_lookup {A} (f : nat → option A) (n : nat) :
  ∀ a, (∀ i, (i < n)%nat → is_Some (f (a + i)%nat)) →
       length (omap f (seq a n)) = n
       ∧ ∀ i, (i < n)%nat → omap f (seq a n) !! i = f (a + i)%nat.
Proof.
  induction n as [|n IH]; intros a Hf.
  - split; [done |]. intros i Hi. lia.
  - change (seq a (S n)) with (a :: seq (S a) n).
    change (omap f (a :: seq (S a) n))
      with (match f a with
            | Some y => y :: omap f (seq (S a) n)
            | None => omap f (seq (S a) n)
            end).
    destruct (Hf O) as [y Hy]; [lia |]. rewrite Nat.add_0_r in Hy.
    rewrite Hy. destruct (IH (S a)) as [Hlen Hlook].
    { intros i Hi. replace (S a + i)%nat with (a + S i)%nat by lia.
      apply Hf. lia. }
    split; [simpl; by rewrite Hlen |].
    intros [|i] Hi; simpl.
    + by rewrite Nat.add_0_r.
    + rewrite Hlook by lia. f_equal. lia.
Qed.

Lemma chain_relationships_spec (ents : list Entity) :
  length (chain_relationships ents) = Nat.min (length ents - 1) 5
  ∧ ∀ i, (i < Nat.min (length ents - 1) 5)%nat →
         ∃ e1 e2, ents !! i = Some e1 ∧ ents !! S i = Some e2
                  ∧ chain_relationships ents !! i
                    = Some {| edge_from := entity_id e1;
                              edge_to := entity_id e2;
                              edge_type := Some "RELATES_TO" |}.
Proof.
  unfold chain_relationships.
  replace (Z.to_nat (Z.min (Z.of_nat (length ents) - 1) 5))
    with (Nat.min (length ents - 1) 5) by lia.
  set (n := Nat.min (length ents - 1) 5).
  assert (∀ i, (i < n)%nat →
               ∃ e1 e2, ents !! i = Some e1 ∧ ents !! S i = Some e2)
    as Hpairs.
  { intros i Hi.
    destruct (lookup_lt_is_Some_2 ents i) as [e1 He1]; [unfold n in Hi; lia |].
    destruct (lookup_lt_is_Some_2 ents (S i)) as [e2 He2];
      [unfold n in Hi; lia |].
    eauto. }
  match goal with
  | |- context [omap ?f (seq 0 n)] =>
      destruct (omap_seq_lookup f n 0) as [Hlen Hlook]
  end.
  { intros i Hi. destruct (Hpairs i Hi) as (e1 & e2 & He1 & He2).
    simpl. rewrite He1, He2. simpl. eauto. }
  split; [exact Hlen |].
  intros i Hi. destruct (Hpairs i Hi) as (e1 & e2 & He1 & He2).
  exists e1, e2. split; [done |]. split; [done |].
  rewrite (Hlook i Hi). simpl. by rewrite He1, He2.
Qed.

(** X25.  The extractor links consecutive entities only, and at most five
    times: for [n] entities it returns [min (n - 1) 5] relationships (none
    for zero or one entity), the [i]-th going from entity [i] to entity
    [i + 1] with the type [RELATES_TO].  Entities after the sixth are not
    linked. *)
Theorem extract_entities_simple_relationships (content chunk_id : string) :
  ∃ ents rels,
    entities (extract_entities_simple content chunk_id) = Some ents
    ∧ relationships (extract_entities_simple content chunk_id) = Some rels
    ∧ length rels = Nat.min (length ents - 1) 5
    ∧ ∀ i, (i < length rels)%nat →
           ∃ e1 e2, ents !! i = Some e1 ∧ ents !! S i = Some e2
                    ∧ rels !! i = Some {| edge_from := entity_id e1;
                                          edge_to := entity_id e2;
                                          edge_type := Some "RELATES_TO" |}.
Proof.
  unfold extract_entities_simple. simpl. do 2 eexists.
  split; [reflexivity |]. split; [reflexivity |].
  match goal with
  | |- context [chain_relationships ?e] =>
      destruct (chain_relationships_spec e) as [Hlen Hlook]
  end.
  split; [exact Hlen |]. intros i Hi. apply Hlook. by rewrite <- Hlen.
Qed.












(** The artifact extracted from a text that mentions MFA is found for the
    identifier MFA; the one extracted from an empty text is not. *)
Example extracted_world_located :
  (c_chunk_id <$>
     get (match outcome (find_chunks_with_entities extracted_world ["MFA"]
                           "chunks") with
          | Ok cs => Some cs
          | Err _ => None
          end) [])
  = ["CHUNK-1"].
Proof. vm_compute. reflexivity. Qed.

(** ** Whole-word search *)








Section WholeWord.
Variable word : string.
Hypothesis word_head : is_word_at (head_char word) = true.
Hypothesis word_last : is_word_at (last_char word) = true.




End WholeWord.



(** * Instances *)


Lemma get_related_entities_returns_iff_witness :
  (0 ≤ 0 ∨ ∃ es, edges {| nodes := None; edges := None |} = Some es
                 ∧ Forall edge_ok es)
  ∧ ∃ r, get_related_entities {| nodes := None; edges := None |} ["A"] 0
         = Ok r.
Proof.
  assert (0 ≤ 0 ∨ ∃ es, edges {| nodes := None; edges := None |} = Some es
                        ∧ Forall edge_ok es) as H by (left; lia).
  split; [exact H |].
  apply (proj2 (get_related_entities_returns_iff
                  {| nodes := None; edges := None |} ["A"] 0) H).
Defined.

Lemma get_subgraph_returns_iff_witness :
  (∃ ns es, nodes dangling_graph = Some ns ∧ edges dangling_graph = Some es
            ∧ Forall node_ok ns ∧ Forall (edge_readable ["B"]) es)
  ∧ ∃ sg, get_subgraph dangling_graph ["B"] = Ok sg.
Proof.
  assert (∃ ns es, nodes dangling_graph = Some ns
                   ∧ edges dangling_graph = Some es
                   ∧ Forall node_ok ns ∧ Forall (edge_readable ["B"]) es)
    as H.
  { do 2 eexists. split; [reflexivity |]. split; [reflexivity |].
    split; repeat constructor; by eexists. }
  split; [exact H |].
  apply (proj2 (get_subgraph_returns_iff dangling_graph ["B"]) H).
Defined.

Lemma glob_match_spec_witness :
  glob_match "entities_CHUNK-0007.json" = true
  ∧ ∃ mid, "entities_CHUNK-0007.json" = "entities_CHUNK-" +:+ mid +:+ ".json".
Proof.
  split; [reflexivity |].
  apply (proj1 (glob_match_spec "entities_CHUNK-0007.json")). reflexivity.
Defined.

Lemma find_chunks_with_entities_returns_iff_witness :
  Forall (artifact_ok ["A"; "B"]) (chunk_artifacts example_world "chunks")
  ∧ ∃ cs, outcome (find_chunks_with_entities example_world ["A"; "B"] "chunks")
          = Ok cs.
Proof.
  split; [apply example_dir_ok |].
  apply (proj2 (find_chunks_with_entities_returns_iff example_world
                  ["A"; "B"] "chunks")), example_dir_ok.
Defined.

Lemma list_by_type_returns_iff_witness :
  (∃ ns, nodes duplicate_graph = Some ns
         ∧ Forall (node_listable "role") ns)
  ∧ ∃ r, list_by_type duplicate_graph "role" 0 = Ok r.
Proof.
  assert (∃ ns, nodes duplicate_graph = Some ns
                ∧ Forall (node_listable "role") ns) as H.
  { eexists. split; [reflexivity |].
    repeat constructor; try (by eexists); intros _; split; by eexists. }
  split; [exact H |].
  apply (proj2 (list_by_type_returns_iff duplicate_graph "role" 0) H).
Defined.

Lemma load_chunk_spec_witness :
  load_chunk [ mkSourceChunk None (Some "no id");
               mkSourceChunk (Some "c1") (Some "first");
               mkSourceChunk (Some "c1") (Some "second") ] "c1"
  = Valid (mkSourceChunk (Some "c1") (Some "first"))
  ∧ ∃ pre post,
      [ mkSourceChunk None (Some "no id");
        mkSourceChunk (Some "c1") (Some "first");
        mkSourceChunk (Some "c1") (Some "second") ]
      = pre ++ mkSourceChunk (Some "c1") (Some "first") :: post
      ∧ sc_chunk_id (mkSourceChunk (Some "c1") (Some "first")) = Some "c1"
      ∧ Forall (fun x => sc_chunk_id x ≠ Some "c1") pre.
Proof.
  split; [reflexivity |].
  apply (proj1 (proj1 (load_chunk_spec _ "c1") _)). reflexivity.
Defined.

Lemma extract_entities_simple_relationships_witness :
  ∃ ents rels,
    entities (extract_entities_simple "CISO, MFA and encryption" "c") = Some ents
    ∧ relationships (extract_entities_simple "CISO, MFA and encryption" "c")
      = Some rels
    ∧ length rels = Nat.min (length ents - 1) 5
    ∧ ∀ i, (i < length rels)%nat →
           ∃ e1 e2, ents !! i = Some e1 ∧ ents !! S i = Some e2
                    ∧ rels !! i = Some {| edge_from := entity_id e1;
                                          edge_to := entity_id e2;
                                          edge_type := Some "RELATES_TO" |}.
Proof.
  apply (extract_entities_simple_relationships "CISO, MFA and encryption" "c").
Defined.

(** Seven entities give five relationships: the sixth entity is a target
    only and the seventh is not linked. *)
Example extract_entities_simple_seven_entities :
  length <$> entities (extract_entities_simple
                         "ISM-1 ISM-2 ISM-3 CISO MFA authentication encryption"
                         "c") = Some 7%nat
  ∧ length <$> relationships (extract_entities_simple
                         "ISM-1 ISM-2 ISM-3 CISO MFA authentication encryption"
                         "c") = Some 5%nat.
Proof. split; vm_compute; reflexivity. Qed.
